(** * Threads::RefCountedArray

  A shallow embedding of [Threads/RefCountedArray.h]: fixed-size arrays
  with copy-on-write sharing, whose storage block carries an atomic
  reference count.

  The program state is explicit: a heap of storage blocks indexed by the
  value of the [Header*] pointer, a store of handle objects indexed by
  object identity (so that [h = h] really passes the same object twice),
  the allocator's break, and a log of the calls that touch a block
  (atomic counter operations, [create], [destroy]) in program order. *)

From stdpp Require Import gmap list fin_maps.
From Stdlib Require Import ZArith Lia.

Local Open Scope Z_scope.

(** ** The atomic counter, [Atomic<unsigned int>] *)

Module Atomic.

(** Modelled from the spec: [Threads/Atomic.h] is not part of the sources.
    The counter is an [unsigned int]; [preAdd] and [preSub] update the
    counter and return its new value ("atomic increment-by-one", "atomic
    decrement-by-one that reports whether the post-decrement value is
    zero"), with the wrap-around of 32-bit unsigned arithmetic. *)
Definition modulus : Z := 2 ^ 32.

Definition preAdd (v d : Z) : Z := (v + d) mod modulus.
Definition preSub (v d : Z) : Z := (v - d) mod modulus.

End Atomic.

Section RefCountedArray.

(** [template <class ElementParam>]: the element type, and the value a
    default-constructed element has. *)
Context {Element : Type}.
Variable dflt : Element.

(** *** struct Header *)

Record Header : Type := mkHeader {
  refCount : Z;            (* Atomic<unsigned int> refCount *)
  size : N;                (* size_t size *)
  elements : list Element  (* Element elements[0] *)
}.

(** [Header(size_t sSize) : refCount(1), size(sSize)] *)
Definition Header_new (sSize : N) (els : list Element) : Header :=
  {| refCount := 1; size := sSize; elements := els |}.

(** [void ref(void) { refCount.preAdd(1); }] *)
Definition Header_ref (h : Header) : Header :=
  {| refCount := Atomic.preAdd (refCount h) 1;
     size := size h; elements := elements h |}.

(** [bool unref(void) { return refCount.preSub(1)==0; }] *)
Definition Header_unref (h : Header) : bool * Header :=
  let v := Atomic.preSub (refCount h) 1 in
  (v =? 0, {| refCount := v; size := size h; elements := elements h |}).

(** *** Program state *)

(** Calls on a storage block, logged in program order.  The counter events
    carry the value the counter has after the operation. *)
Inductive event : Type :=
| EvGet (p : N) (v : Z)       (* the counter of block [p] was read *)
| EvPreAdd (p : N) (v : Z)    (* refCount.preAdd(1) on block [p] *)
| EvPreSub (p : N) (v : Z)    (* refCount.preSub(1) on block [p] *)
| EvCreate (p : N) (n : N)    (* create(n) returned [p] *)
| EvDestroy (p : N).          (* destroy(p) *)

(** [heap] maps the value of a [Header*] to the block it points to; the
    null pointer is [0].  [objs] maps the identity of a live
    [RefCountedArray] object to its [header] field.  [brk] is the address
    the allocator hands out next; it is never null. *)
Record State : Type := mkState {
  heap : gmap N Header;
  objs : gmap nat N;
  brk : positive;
  trace : list event
}.

Definition init : State :=
  {| heap := ∅; objs := ∅; brk := 1%positive; trace := [] |}.

Definition set_heap (f : gmap N Header → gmap N Header) (s : State) : State :=
  {| heap := f (heap s); objs := objs s; brk := brk s; trace := trace s |}.

Definition set_objs (f : gmap nat N → gmap nat N) (s : State) : State :=
  {| heap := heap s; objs := f (objs s); brk := brk s; trace := trace s |}.

Definition log (e : event) (s : State) : State :=
  {| heap := heap s; objs := objs s; brk := brk s; trace := trace s ++ [e] |}.

(** *** Outcomes

    A call returns normally, leaves by the exception of a failed
    allocation (with the state it had reached), or has undefined
    behaviour (a null or dangling pointer is dereferenced, an index is
    out of range, an object that does not exist is used). *)
Inductive result (A : Type) : Type :=
| Ok (a : A) (s : State)
| BadAlloc (s : State)
| Undefined.
Arguments Ok {A} a s.
Arguments BadAlloc {A} s.
Arguments Undefined {A}.

Definition M (A : Type) : Type := State → result A.

Definition ret {A} (a : A) : M A := λ s, Ok a s.

Definition bind {A B} (c : M A) (k : A → M B) : M B :=
  λ s, match c s with
       | Ok a s' => k a s'
       | BadAlloc s' => BadAlloc s'
       | Undefined => Undefined
       end.

Definition undefined {A} : M A := λ _, Undefined.

Definition modify_state (f : State → State) : M unit := λ s, Ok tt (f s).

Notation "x <- c ;; k" := (bind c (λ x, k))
  (at level 100, c at next level, right associativity).
Notation "c ;;; k" := (bind c (λ _, k))
  (at level 100, right associativity).

(** Dereferencing a [Header*]: null and dangling pointers are undefined. *)
Definition deref (p : N) : M Header :=
  λ s, if decide (p = 0%N) then Undefined
       else match heap s !! p with
            | Some h => Ok h s
            | None => Undefined
            end.

(** The [header] field of the handle object [this]. *)
Definition get_header (this : nat) : M N :=
  λ s, match objs s !! this with
       | Some p => Ok p s
       | None => Undefined
       end.

Definition set_header (this : nat) (p : N) : M unit :=
  modify_state (set_objs (insert this p)).

(** [header->ref()] *)
Definition ref (p : N) : M unit :=
  h <- deref p ;;
  let h' := Header_ref h in
  modify_state (set_heap (insert p h')) ;;;
  modify_state (log (EvPreAdd p (refCount h'))).

(** [header->unref()] *)
Definition unref (p : N) : M bool :=
  h <- deref p ;;
  let r := Header_unref h in
  modify_state (set_heap (insert p (snd r))) ;;;
  modify_state (log (EvPreSub p (refCount (snd r)))) ;;;
  ret (fst r).

(** *** The private helpers [create] and [destroy] *)

(** Modelled from the spec: the body of [create] is in
    [RefCountedArray.icpp], which is not part of the sources.  "Reserves
    one region sized to hold the fixed fields plus [size] elements;
    default-constructs each element; initializes [refCount = 1]."  [ok]
    is the answer of the allocator: when it is [false] the call leaves by
    the allocation failure before anything is built. *)
Definition create (ok : bool) (newSize : N) : M N :=
  λ s, if ok then
         let p := Npos (brk s) in
         Ok p {| heap := <[p := Header_new newSize
                                  (replicate (N.to_nat newSize) dflt)]> (heap s);
                 objs := objs s;
                 brk := Pos.succ (brk s);
                 trace := trace s ++ [EvCreate p newSize] |}
       else BadAlloc s.

(** Modelled from the spec: the body of [destroy] is in
    [RefCountedArray.icpp].  "Destructs every element in order, then
    releases the allocation." *)
Definition destroy (p : N) : M unit :=
  _ <- deref p ;;
  modify_state (set_heap (delete p)) ;;;
  modify_state (log (EvDestroy p)).

(** [if(header->unref()) destroy(header);] *)
Definition unref_and_destroy (p : N) : M unit :=
  orphaned <- unref p ;;
  if orphaned : bool then destroy p else ret tt.

(** [if(header!=0&&header->unref()) destroy(header);] *)
Definition release (p : N) : M unit :=
  if decide (p ≠ 0%N) then unref_and_destroy p else ret tt.

(** *** Constructors, assignment, destructor *)

(** A constructor runs on an object that does not exist yet. *)
Definition fresh_object (this : nat) : M unit :=
  λ s, match objs s !! this with
       | None => Ok tt s
       | Some _ => Undefined
       end.

(** [RefCountedArray(void) : header(0) {}] *)
Definition ctor_default (this : nat) : M unit :=
  fresh_object this ;;;
  set_header this 0%N.

(** [RefCountedArray(size_t sSize) : header(create(sSize)) {}] *)
Definition ctor_sized (ok : bool) (this : nat) (sSize : N) : M unit :=
  fresh_object this ;;;
  p <- create ok sSize ;;
  set_header this p.

(** [RefCountedArray(const RefCountedArray& source) : header(source.header)
    { if(header!=0) header->ref(); }] *)
Definition ctor_copy (this source : nat) : M unit :=
  fresh_object this ;;;
  p <- get_header source ;;
  set_header this p ;;;
  header <- get_header this ;;
  if decide (header ≠ 0%N) then ref header else ret tt.

(** [operator=] *)
Definition assign (this source : nat) : M unit :=
  header <- get_header this ;;
  source_header <- get_header source ;;
  if decide (header ≠ source_header) then
    release header ;;;
    source_header <- get_header source ;;
    set_header this source_header ;;;
    header <- get_header this ;;
    if decide (header ≠ 0%N) then ref header else ret tt
  else ret tt.

(** [~RefCountedArray(void)]; afterwards the object is gone. *)
Definition dtor (this : nat) : M unit :=
  header <- get_header this ;;
  release header ;;;
  modify_state (set_objs (delete this)).

(** *** Methods *)

(** [bool isValid(void) const { return header!=0; }] *)
Definition isValid (this : nat) : M bool :=
  header <- get_header this ;;
  ret (bool_decide (header ≠ 0%N)).

(** [size_t getSize(void) const { return header->size; }] *)
Definition getSize (this : nat) : M N :=
  header <- get_header this ;;
  h <- deref header ;;
  ret (size h).

(** An [Element*] or [Element&] into the storage of a block: the block
    and the index of the element. *)
Inductive eptr : Type := ElemPtr (p : N) (index : N).

(** [const Element* getArray(void) const { return header->elements; }] *)
Definition getArray_const (this : nat) : M eptr :=
  header <- get_header this ;;
  _ <- deref header ;;
  ret (ElemPtr header 0).

(** [const Element& operator[](size_t index) const
    { return header->elements[index]; }] *)
Definition index_const (this : nat) (index : N) : M eptr :=
  header <- get_header this ;;
  _ <- deref header ;;
  ret (ElemPtr header index).

(** [Element* getArray(void) { return header->elements; }] *)
Definition getArray (this : nat) : M eptr :=
  header <- get_header this ;;
  _ <- deref header ;;
  ret (ElemPtr header 0).

(** [Element& operator[](size_t index) { return header->elements[index]; }] *)
Definition index (this : nat) (index : N) : M eptr :=
  header <- get_header this ;;
  _ <- deref header ;;
  ret (ElemPtr header index).

(** Reading and writing through an [Element*] or [Element&]; there is no
    bounds check in the program, an access out of range is undefined. *)
Definition load (r : eptr) : M Element :=
  let 'ElemPtr p i := r in
  h <- deref p ;;
  match elements h !! N.to_nat i with
  | Some x => ret x
  | None => undefined
  end.

Definition store (r : eptr) (x : Element) : M unit :=
  let 'ElemPtr p i := r in
  h <- deref p ;;
  if decide (N.to_nat i < length (elements h))%nat then
    modify_state (set_heap (insert p
      {| refCount := refCount h; size := size h;
         elements := <[N.to_nat i := x]> (elements h) |}))
  else undefined.

(** [dst[i] = src[i]] for [i] from [i] up to [i + n]. *)
Fixpoint copy_elements (src dst : list Element) (i n : nat) : list Element :=
  match n with
  | O => dst
  | S n' =>
      match src !! i with
      | Some x => copy_elements src (<[i := x]> dst) (S i) n'
      | None => copy_elements src dst (S i) n'
      end
  end.

(** Modelled from the spec: the body of [modify] is in
    [RefCountedArray.icpp].  "If the currently referenced block is
    observed to be exclusively owned (reference count of exactly 1),
    nothing happens.  Otherwise: allocate a new block of the same size,
    copy every element from the old block into the new one, adopt the new
    block (refcount 1) as this handle's sole reference, and release the
    old block (decrement its count; destroy it if that was the last other
    reference)." *)
Definition modify (ok : bool) (this : nat) : M unit :=
  header <- get_header this ;;
  h <- deref header ;;
  modify_state (log (EvGet header (refCount h))) ;;;
  if decide (refCount h = 1) then ret tt
  else
    newHeader <- create ok (size h) ;;
    n <- deref newHeader ;;
    modify_state (set_heap (insert newHeader
      {| refCount := refCount n; size := size n;
         elements := copy_elements (elements h) (elements n)
                       0 (N.to_nat (size h)) |})) ;;;
    set_header this newHeader ;;;
    unref_and_destroy header.

(** [void set(size_t index,const Element& newElement)
    { modify(); header->elements[index]=newElement; }] *)
Definition set (ok : bool) (this : nat) (index : N) (newElement : Element)
  : M unit :=
  modify ok this ;;;
  header <- get_header this ;;
  _ <- deref header ;;
  store (ElemPtr header index) newElement.

(** *** Sequences of handle operations *)

Inductive op : Type :=
| OpDefault (this : nat)
| OpSized (ok : bool) (this : nat) (n : N)
| OpCopy (this source : nat)
| OpAssign (this source : nat)
| OpModify (ok : bool) (this : nat)
| OpSet (ok : bool) (this : nat) (index : N) (x : Element)
| OpDtor (this : nat).

Definition exec (o : op) : M unit :=
  match o with
  | OpDefault this => ctor_default this
  | OpSized ok this n => ctor_sized ok this n
  | OpCopy this source => ctor_copy this source
  | OpAssign this source => assign this source
  | OpModify ok this => modify ok this
  | OpSet ok this i x => set ok this i x
  | OpDtor this => dtor this
  end.

(** A failed allocation is an exception the caller catches; the program
    goes on from the state the failed call left.  Undefined behaviour ends
    the run. *)
Fixpoint run (os : list op) (s : State) : option State :=
  match os with
  | [] => Some s
  | o :: os' =>
      match exec o s with
      | Ok _ s' => run os' s'
      | BadAlloc s' => run os' s'
      | Undefined => None
      end
  end.


(** *** Closed forms of the composite steps *)

(** The state after [if(header->unref()) destroy(header);] on the live
    block [h] at [p]. *)
Definition released (p : N) (h : Header) (s : State) : State :=
  let r := Header_unref h in
  let s1 := log (EvPreSub p (refCount (snd r))) (set_heap (insert p (snd r)) s) in
  if fst r then log (EvDestroy p) (set_heap (delete p) s1) else s1.

(** The heap of that state. *)
Definition heap_released (X : N) (hX : Header) (hp : gmap N Header) :=
  if Atomic.preSub (refCount hX) 1 =? 0 then delete X hp
  else <[X := snd (Header_unref hX)]> hp.

(** The block [modify] builds from the shared block [h]. *)
Definition unshared_copy (h : Header) : Header :=
  {| refCount := 1; size := size h;
     elements := copy_elements (elements h)
                   (replicate (N.to_nat (size h)) dflt)
                   0 (N.to_nat (size h)) |}.

(** The state after [modify] has unshared the handle [this] from the
    block [h] at [p]. *)
Definition unshared (this : nat) (p : N) (h : Header) (s : State) : State :=
  released p h
    {| heap := <[Npos (brk s) := unshared_copy h]> (heap s);
       objs := <[this := Npos (brk s)]> (objs s);
       brk := Pos.succ (brk s);
       trace := (trace s ++ [EvGet p (refCount h)])
                  ++ [EvCreate (Npos (brk s)) (size h)] |}.

(** The block [h] with element [i] overwritten. *)
Definition with_element (h : Header) (i : N) (x : Element) : Header :=
  {| refCount := refCount h; size := size h;
     elements := <[N.to_nat i := x]> (elements h) |}.

(** *** The reference-count invariant *)

(** The number of handle objects whose [header] is [p]. *)
Definition sharers_of (m : gmap nat N) (p : N) : nat :=
  base.size (filter (λ kv : nat * N, kv.2 = p) m).

Definition sharers (s : State) (p : N) : nat := sharers_of (objs s) p.

(** The blocks [destroy] was called on, in program order. *)
Fixpoint destroyed (t : list event) : list N :=
  match t with
  | [] => []
  | EvDestroy p :: t' => p :: destroyed t'
  | _ :: t' => destroyed t'
  end.

(** [paired None t]: in the log [t] every [unref] that brought a counter
    to zero is immediately followed by the [destroy] of that block, and
    there is no other [destroy].  [pending] is the block whose counter has
    just reached zero. *)
Fixpoint paired (pending : option N) (t : list event) : bool :=
  match t with
  | [] => match pending with None => true | Some _ => false end
  | e :: t' =>
      match pending, e with
      | Some p, EvDestroy q => (p =? q)%N && paired None t'
      | Some _, _ => false
      | None, EvDestroy _ => false
      | None, EvPreSub p v => paired (if v =? 0 then Some p else None) t'
      | None, _ => paired None t'
      end
  end.

(** What holds of heap, allocator and log at every point of a run. *)
Record HInv (hp : gmap N Header) (b : positive) (t : list event) : Prop := mkHInv {
  (* live blocks were handed out by the allocator, and none is at null *)
  h_below : ∀ p h, hp !! p = Some h → p ≠ 0%N ∧ (p < Npos b)%N;
  (* a block holds as many elements as its size field says *)
  h_shape : ∀ p h, hp !! p = Some h → length (elements h) = N.to_nat (size h);
  (* a destroyed block is gone for good, and was destroyed once *)
  h_dead : ∀ p, p ∈ destroyed t → hp !! p = None ∧ (p < Npos b)%N;
  h_once : NoDup (destroyed t);
  h_paired : paired None t = true
}.

(** What holds of heap and handles between two handle operations. *)
Record CInv (hp : gmap N Header) (m : gmap nat N) : Prop := mkCInv {
  (* there is no block at the null pointer *)
  c_null : hp !! 0%N = None;
  (* a valid handle references a live block *)
  c_live : ∀ o p, m !! o = Some p → p ≠ 0%N → is_Some (hp !! p);
  (* the counter of a live block is the number of handles referencing it *)
  c_count : ∀ p h, hp !! p = Some h →
                   refCount h = Z.of_nat (sharers_of m p)
                   ∧ (1 ≤ sharers_of m p)%nat;
  (* no block has as many handles as the counter has values *)
  c_few : ∀ p, p ≠ 0%N → Z.of_nat (sharers_of m p) < Atomic.modulus
}.

Record Inv (s : State) : Prop := mkInv {
  inv_heap : HInv (heap s) (brk s) (trace s);
  inv_handles : CInv (heap s) (objs s)
}.

(** How a handle operation changes heap and allocator, whatever it is:
    addresses are not handed out twice, and a block keeps its size. *)
Record Step (s s' : State) : Prop := mkStep {
  step_brk : (brk s ≤ brk s')%positive;
  step_dead : ∀ p, (p < Npos (brk s))%N → heap s !! p = None →
                   heap s' !! p = None;
  step_size : ∀ p h h', heap s !! p = Some h → heap s' !! p = Some h' →
                        size h' = size h
}.

(** What holds of the state a call leaves, when the call is defined. *)
Definition post {A} (Q : State → Prop) (r : result A) : Prop :=
  match r with
  | Ok _ s' => Q s'
  | BadAlloc s' => Q s'
  | Undefined => True
  end.

(** No block of [s] has as many handles as the [unsigned int] counter has
    values: every counter can still count its handles. *)
Definition few (s : State) : Prop :=
  ∀ p, p ≠ 0%N → Z.of_nat (sharers s p) < Atomic.modulus.

(** The same, decided on the pointers the handle objects hold. *)
Definition few_sharers (s : State) : bool :=
  bool_decide
    (map_Forall (λ (_ : nat) (p : N),
                   p ≠ 0%N → Z.of_nat (sharers s p) < Atomic.modulus)
                (objs s)).

(** [never_wraps os s]: along the run of [os] from [s], after every
    operation, no block has as many handles as the counter has values. *)
Fixpoint never_wraps (os : list op) (s : State) : bool :=
  match os with
  | [] => true
  | o :: os' =>
      match exec o s with
      | Ok _ s' => few_sharers s' && never_wraps os' s'
      | BadAlloc s' => few_sharers s' && never_wraps os' s'
      | Undefined => true
      end
  end.


(** What one handle operation guarantees: it is a [Step], it makes at
    most one new handle object, it keeps heap, allocator and log in order,
    and it keeps counters and handles in line as long as every counter can
    still count its handles. *)
Definition good (s s' : State) : Prop :=
  Step s s'
  ∧ (base.size (objs s') ≤ S (base.size (objs s)))%nat
  ∧ HInv (heap s') (brk s') (trace s')
  ∧ (CInv (heap s) (objs s) → few s' → CInv (heap s') (objs s')).

(** An event that is neither a [destroy] nor an [unref] reaching zero. *)
Definition neutral (e : event) : Prop :=
  match e with
  | EvDestroy _ => False
  | EvPreSub _ v => v ≠ 0
  | _ => True
  end.

(** *** Reading the monad *)

Lemma bind_Ok {A B} (c : M A) (k : A → M B) s a s' :
  c s = Ok a s' → bind c k s = k a s'.
Proof. unfold bind. by intros ->. Qed.


Lemma bind_Undefined {A B} (c : M A) (k : A → M B) s :
  c s = Undefined → bind c k s = Undefined.
Proof. unfold bind. by intros ->. Qed.

Lemma get_header_None this s :
  objs s !! this = None → get_header this s = Undefined.
Proof. unfold get_header. by intros ->. Qed.

Lemma deref_None p s :
  heap s !! p = None → deref p s = Undefined.
Proof. unfold deref. intros ->. by case_decide. Qed.

Lemma deref_Ok p h s :
  p ≠ 0%N → heap s !! p = Some h → deref p s = Ok h s.
Proof. intros Hp Hh. unfold deref. rewrite decide_False by done. by rewrite Hh. Qed.

Lemma get_header_Ok this p s :
  objs s !! this = Some p → get_header this s = Ok p s.
Proof. unfold get_header. by intros ->. Qed.

Lemma ref_Ok p h s :
  p ≠ 0%N → heap s !! p = Some h →
  ref p s = Ok tt (log (EvPreAdd p (refCount (Header_ref h)))
                       (set_heap (insert p (Header_ref h)) s)).
Proof.
  intros Hp Hh. unfold ref.
  by rewrite (bind_Ok _ _ _ _ _ (deref_Ok _ _ _ Hp Hh)).
Qed.

Lemma unref_Ok p h s :
  p ≠ 0%N → heap s !! p = Some h →
  unref p s = Ok (fst (Header_unref h))
                 (log (EvPreSub p (refCount (snd (Header_unref h))))
                      (set_heap (insert p (snd (Header_unref h))) s)).
Proof.
  intros Hp Hh. unfold unref.
  by rewrite (bind_Ok _ _ _ _ _ (deref_Ok _ _ _ Hp Hh)).
Qed.

Lemma destroy_Ok p h s :
  p ≠ 0%N → heap s !! p = Some h →
  destroy p s = Ok tt (log (EvDestroy p) (set_heap (delete p) s)).
Proof.
  intros Hp Hh. unfold destroy.
  by rewrite (bind_Ok _ _ _ _ _ (deref_Ok _ _ _ Hp Hh)).
Qed.

Lemma unref_and_destroy_Ok p h s :
  p ≠ 0%N → heap s !! p = Some h →
  unref_and_destroy p s = Ok tt (released p h s).
Proof.
  intros Hp Hh. unfold unref_and_destroy, released.
  rewrite (bind_Ok _ _ _ _ _ (unref_Ok _ _ _ Hp Hh)).
  destruct (fst (Header_unref h)); [|done].
  eapply destroy_Ok; [done|]. cbn. apply lookup_insert_eq.
Qed.

Lemma release_Ok p h s :
  p ≠ 0%N → heap s !! p = Some h → release p s = Ok tt (released p h s).
Proof.
  intros Hp Hh. unfold release. rewrite decide_True by done.
  by apply unref_and_destroy_Ok.
Qed.

Lemma release_null s : release 0%N s = Ok tt s.
Proof. unfold release. by rewrite decide_False by (intros H; by apply H). Qed.

(** Fields of the state a release leaves. *)
Lemma released_objs p h s : objs (released p h s) = objs s.
Proof. unfold released. by destruct (fst (Header_unref h)). Qed.

Lemma released_brk p h s : brk (released p h s) = brk s.
Proof. unfold released. by destruct (fst (Header_unref h)). Qed.

Lemma released_heap p h s :
  heap (released p h s) =
    if Atomic.preSub (refCount h) 1 =? 0 then delete p (heap s)
    else <[p := snd (Header_unref h)]> (heap s).
Proof.
  unfold released. cbn.
  destruct (Atomic.preSub (refCount h) 1 =? 0); cbn; [|done].
  apply delete_insert_eq.
Qed.

Lemma released_trace p h s :
  trace (released p h s) =
    trace s ++ EvPreSub p (Atomic.preSub (refCount h) 1)
            :: (if Atomic.preSub (refCount h) 1 =? 0 then [EvDestroy p] else []).
Proof.
  unfold released. cbn.
  destruct (Atomic.preSub (refCount h) 1 =? 0); cbn; [|done].
  by rewrite <- app_assoc.
Qed.

Lemma released_heap_eq p h s :
  heap (released p h s) = heap_released p h (heap s).
Proof. apply released_heap. Qed.

Lemma released_heap_ne p h s q :
  q ≠ p → heap (released p h s) !! q = heap s !! q.
Proof.
  intros Hq. rewrite released_heap.
  destruct (_ =? 0); [by rewrite lookup_delete_ne | by rewrite lookup_insert_ne].
Qed.

(** *** [copy_elements] copies the whole array *)

Lemma copy_elements_spec (src : list Element) n :
  ∀ i dst,
    length dst = length src →
    (i + n)%nat = length src →
    copy_elements src dst i n = take i dst ++ drop i src.
Proof.
  induction n as [|n IH]; intros i dst Hlen Hin; cbn.
  - rewrite Nat.add_0_r in Hin. subst i.
    rewrite <- Hlen at 1. rewrite firstn_all.
    rewrite drop_ge by lia. by rewrite app_nil_r.
  - destruct (lookup_lt_is_Some_2 src i) as [x Hx]; [lia|].
    rewrite Hx. rewrite IH by (rewrite ?length_insert; lia).
    rewrite (take_S_r _ i x) by (apply list_lookup_insert_eq; lia).
    rewrite take_insert_ge by lia.
    rewrite (drop_S src x i Hx). by rewrite <- app_assoc.
Qed.

Lemma copy_elements_all (src : list Element) :
  copy_elements src (replicate (length src) dflt) 0 (length src) = src.
Proof.
  rewrite copy_elements_spec by (rewrite ?length_replicate; lia).
  by rewrite take_0, drop_0.
Qed.

Lemma unshared_copy_elements (h : Header) :
  length (elements h) = N.to_nat (size h) →
  elements (unshared_copy h) = elements h.
Proof. intros Hlen. cbn. rewrite <- Hlen. apply copy_elements_all. Qed.

(** *** [modify] *)

Lemma modify_exclusive ok this p h s :
  objs s !! this = Some p → p ≠ 0%N → heap s !! p = Some h →
  refCount h = 1 →
  modify ok this s = Ok tt (log (EvGet p 1) s).
Proof.
  intros Hthis Hp Hh Hrc. unfold modify.
  rewrite (bind_Ok _ _ _ _ _ (get_header_Ok _ _ _ Hthis)).
  rewrite (bind_Ok _ _ _ _ _ (deref_Ok _ _ _ Hp Hh)).
  unfold bind, modify_state. rewrite decide_True by done. by rewrite Hrc.
Qed.

Lemma modify_shared_fail this p h s :
  objs s !! this = Some p → p ≠ 0%N → heap s !! p = Some h →
  refCount h ≠ 1 →
  modify false this s = BadAlloc (log (EvGet p (refCount h)) s).
Proof.
  intros Hthis Hp Hh Hrc. unfold modify.
  rewrite (bind_Ok _ _ _ _ _ (get_header_Ok _ _ _ Hthis)).
  rewrite (bind_Ok _ _ _ _ _ (deref_Ok _ _ _ Hp Hh)).
  unfold bind at 1, modify_state. by rewrite decide_False by done.
Qed.

Lemma modify_shared_Ok this p h s :
  objs s !! this = Some p → p ≠ 0%N → heap s !! p = Some h →
  refCount h ≠ 1 →
  p ≠ Npos (brk s) →
  modify true this s = Ok tt (unshared this p h s).
Proof.
  intros Hthis Hp Hh Hrc Hfresh. unfold modify.
  rewrite (bind_Ok _ _ _ _ _ (get_header_Ok _ _ _ Hthis)).
  rewrite (bind_Ok _ _ _ _ _ (deref_Ok _ _ _ Hp Hh)).
  unfold bind at 1, modify_state at 1. rewrite decide_False by done.
  unfold bind at 1, create. cbn [log heap objs brk trace].
  erewrite bind_Ok; last first.
  { apply deref_Ok; [done|]. cbn. apply lookup_insert_eq. }
  unfold bind at 1, modify_state at 1.
  unfold bind at 1, set_header, modify_state at 1.
  unfold unshared, set_objs, set_heap.
  cbn [heap objs brk trace Header_new refCount size elements].
  rewrite insert_insert_eq.
  apply unref_and_destroy_Ok; [done|].
  cbn. by rewrite lookup_insert_ne.
Qed.

(** *** Access through element pointers, and [set] *)

Lemma store_Ok p i x h s :
  p ≠ 0%N → heap s !! p = Some h →
  (N.to_nat i < length (elements h))%nat →
  store (ElemPtr p i) x s = Ok tt (set_heap (insert p (with_element h i x)) s).
Proof.
  intros Hp Hh Hi. unfold store.
  rewrite (bind_Ok _ _ _ _ _ (deref_Ok _ _ _ Hp Hh)).
  by rewrite decide_True by done.
Qed.

Lemma load_Ok p i x h s :
  p ≠ 0%N → heap s !! p = Some h →
  elements h !! N.to_nat i = Some x →
  load (ElemPtr p i) s = Ok x s.
Proof.
  intros Hp Hh Hi. unfold load.
  rewrite (bind_Ok _ _ _ _ _ (deref_Ok _ _ _ Hp Hh)).
  by rewrite Hi.
Qed.

Lemma pointer_Ok this p h s (k : N) :
  objs s !! this = Some p → p ≠ 0%N → heap s !! p = Some h →
  (header <- get_header this ;; _ <- deref header ;; ret (ElemPtr header k)) s
  = Ok (ElemPtr p k) s.
Proof.
  intros Hthis Hp Hh.
  rewrite (bind_Ok _ _ _ _ _ (get_header_Ok _ _ _ Hthis)).
  by rewrite (bind_Ok _ _ _ _ _ (deref_Ok _ _ _ Hp Hh)).
Qed.

Lemma set_after_modify ok this i x s s1 q hq :
  modify ok this s = Ok tt s1 →
  objs s1 !! this = Some q → q ≠ 0%N → heap s1 !! q = Some hq →
  (N.to_nat i < length (elements hq))%nat →
  set ok this i x s = Ok tt (set_heap (insert q (with_element hq i x)) s1).
Proof.
  intros Hmod Hthis Hq Hhq Hi. unfold set.
  rewrite (bind_Ok _ _ _ _ _ Hmod).
  rewrite (bind_Ok _ _ _ _ _ (get_header_Ok _ _ _ Hthis)).
  rewrite (bind_Ok _ _ _ _ _ (deref_Ok _ _ _ Hq Hhq)).
  by apply store_Ok.
Qed.

Lemma set_exclusive ok this i x p h s :
  objs s !! this = Some p → p ≠ 0%N → heap s !! p = Some h →
  refCount h = 1 →
  (N.to_nat i < length (elements h))%nat →
  set ok this i x s
  = Ok tt (set_heap (insert p (with_element h i x)) (log (EvGet p 1) s)).
Proof.
  intros Hthis Hp Hh Hrc Hi.
  eapply set_after_modify; eauto using modify_exclusive.
Qed.

Lemma unshared_objs this p h s :
  objs (unshared this p h s) = <[this := Npos (brk s)]> (objs s).
Proof. unfold unshared. by rewrite released_objs. Qed.

Lemma unshared_heap this p h s :
  heap (unshared this p h s) =
    if Atomic.preSub (refCount h) 1 =? 0
    then delete p (<[Npos (brk s) := unshared_copy h]> (heap s))
    else <[p := snd (Header_unref h)]>
           (<[Npos (brk s) := unshared_copy h]> (heap s)).
Proof. unfold unshared. by rewrite released_heap. Qed.

Lemma unshared_heap_new this p h s :
  p ≠ Npos (brk s) →
  heap (unshared this p h s) !! Npos (brk s) = Some (unshared_copy h).
Proof.
  intros Hfresh. unfold unshared. rewrite released_heap_ne by done.
  cbn. apply lookup_insert_eq.
Qed.

Lemma unshared_trace this p h s :
  trace (unshared this p h s) =
    trace s ++ [EvGet p (refCount h); EvCreate (Npos (brk s)) (size h);
                EvPreSub p (Atomic.preSub (refCount h) 1)]
            ++ (if Atomic.preSub (refCount h) 1 =? 0 then [EvDestroy p] else []).
Proof.
  unfold unshared. rewrite released_trace. cbn.
  by rewrite <- !app_assoc.
Qed.

Lemma set_shared_Ok this i x p h s :
  objs s !! this = Some p → p ≠ 0%N → heap s !! p = Some h →
  refCount h ≠ 1 →
  p ≠ Npos (brk s) →
  length (elements h) = N.to_nat (size h) →
  (N.to_nat i < length (elements h))%nat →
  set true this i x s
  = Ok tt (set_heap (insert (Npos (brk s)) (with_element (unshared_copy h) i x))
             (unshared this p h s)).
Proof.
  intros Hthis Hp Hh Hrc Hfresh Hlen Hi.
  eapply set_after_modify.
  - by apply modify_shared_Ok.
  - rewrite unshared_objs. apply lookup_insert_eq.
  - done.
  - by apply unshared_heap_new.
  - by rewrite unshared_copy_elements.
Qed.

(** *** The counter stays in the range of [unsigned int] *)

Lemma preSub_1 v : 1 ≤ v < Atomic.modulus → Atomic.preSub v 1 = v - 1.
Proof. intros ?. unfold Atomic.preSub. apply Z.mod_small. lia. Qed.

Lemma preAdd_1 v : 0 ≤ v < Atomic.modulus - 1 → Atomic.preAdd v 1 = v + 1.
Proof. intros ?. unfold Atomic.preAdd. apply Z.mod_small. lia. Qed.

(** *** Counting handles *)

Lemma sharers_of_delete m this q p :
  m !! this = Some q →
  sharers_of m p
  = (sharers_of (delete this m) p + (if decide (q = p) then 1 else 0))%nat.
Proof.
  intros Hthis. unfold sharers_of. rewrite map_filter_delete, map_size_delete.
  destruct (decide (q = p)) as [->|Hne].
  - assert (Hin : filter (λ kv : nat * N, kv.2 = p) m !! this = Some p)
      by (by apply map_lookup_filter_Some).
    rewrite Hin. cbn.
    pose proof (map_size_ne_0_lookup_2 _ this (mk_is_Some _ _ Hin)). lia.
  - assert (Hout : filter (λ kv : nat * N, kv.2 = p) m !! this = None).
    { apply map_lookup_filter_None. right. intros x Hx. cbn. congruence. }
    rewrite Hout. cbn. lia.
Qed.

Lemma sharers_of_insert m this q p :
  sharers_of (<[this := q]> m) p
  = (sharers_of (delete this m) p + (if decide (q = p) then 1 else 0))%nat.
Proof.
  rewrite (sharers_of_delete (<[this := q]> m) this q p)
    by apply lookup_insert_eq.
  by rewrite delete_insert_eq.
Qed.

Lemma sharers_of_zero m p :
  sharers_of m p = 0%nat ↔ ∀ o, m !! o ≠ Some p.
Proof.
  unfold sharers_of. rewrite map_size_empty_iff. split.
  - intros Hempty o Ho.
    by apply (map_filter_empty_not_lookup _ _ o p Hempty).
  - intros Hno. apply map_empty_filter_2. intros o q Ho Hq. cbn in Hq.
    subst q. by apply (Hno o).
Qed.

Lemma sharers_of_le m p : (sharers_of m p ≤ base.size m)%nat.
Proof. apply map_subseteq_size, map_filter_subseteq. Qed.

Lemma sharers_of_fresh m this p :
  m !! this = None → sharers_of (delete this m) p = sharers_of m p.
Proof. intros Hnone. by rewrite delete_id. Qed.

Lemma sharers_of_exists (m : gmap nat N) (p : N) :
  (1 ≤ sharers_of m p)%nat → ∃ o, m !! o = Some p.
Proof.
  intros Hpos.
  destruct (map_size_ne_0_lookup_1 (filter (λ kv : nat * N, kv.2 = p) m))
    as (o & q & Ho); [unfold sharers_of in Hpos; lia|].
  apply map_lookup_filter_Some in Ho as [Ho Hq]. cbn in Hq. subst q.
  by exists o.
Qed.

Lemma sharers_of_two (m : gmap nat N) (a b : nat) (p : N) :
  a ≠ b → m !! a = Some p → m !! b = Some p → (2 ≤ sharers_of m p)%nat.
Proof.
  intros Hab Ha Hb. rewrite (sharers_of_delete m a p p Ha).
  rewrite decide_True by done.
  destruct (sharers_of (delete a m) p) eqn:Hz; [|lia].
  destruct (proj1 (sharers_of_zero _ _) Hz b). by rewrite lookup_delete_ne.
Qed.

(** *** The log *)

Lemma destroyed_app t1 t2 : destroyed (t1 ++ t2) = destroyed t1 ++ destroyed t2.
Proof.
  induction t1 as [|e t1 IH]; [done|].
  destruct e; cbn; by rewrite ?IH.
Qed.

Lemma destroyed_neutral e : neutral e → destroyed [e] = [].
Proof. by destruct e. Qed.

Lemma paired_app t1 : ∀ pd t2,
  paired pd t1 = true → paired None t2 = true → paired pd (t1 ++ t2) = true.
Proof.
  induction t1 as [|e t1 IH]; intros pd t2 H1 H2.
  - destruct pd; [discriminate|done].
  - cbn in *. destruct pd as [p|], e; try discriminate; eauto.
    apply andb_true_iff in H1 as [-> H1]. cbn. eauto.
Qed.

Lemma paired_neutral e : neutral e → paired None [e] = true.
Proof.
  destruct e; cbn; try done.
  intros Hv. by rewrite (proj2 (Z.eqb_neq v 0) Hv).
Qed.

Lemma paired_destroy p : paired None [EvPreSub p 0; EvDestroy p] = true.
Proof. cbn. by rewrite N.eqb_refl. Qed.

(** *** Heap, allocator and log under the primitive steps *)

Lemma HInv_update hp b t p h h' :
  hp !! p = Some h →
  length (elements h') = N.to_nat (size h') →
  HInv hp b t → HInv (<[p := h']> hp) b t.
Proof.
  intros Hp Hshape [Hbelow Hsh Hdead Honce Hpair].
  split; try done.
  - intros q hq. rewrite lookup_insert. case_decide; [subst q|]; eauto.
  - intros q hq. rewrite lookup_insert. case_decide; [subst q|]; eauto.
    by intros [= <-].
  - intros q Hq. destruct (Hdead q Hq) as [Hnone ?]. split; [|done].
    rewrite lookup_insert_ne; [done|]. intros ->. congruence.
Qed.

Lemma HInv_log hp b t e :
  neutral e → HInv hp b t → HInv hp b (t ++ [e]).
Proof.
  intros He [Hbelow Hsh Hdead Honce Hpair].
  split; try done.
  - intros q. rewrite destroyed_app, (destroyed_neutral e He), app_nil_r. eauto.
  - by rewrite destroyed_app, (destroyed_neutral e He), app_nil_r.
  - apply paired_app; [done|]. by apply paired_neutral.
Qed.

Lemma HInv_destroy hp b t p h :
  hp !! p = Some h →
  HInv hp b t → HInv (delete p hp) b (t ++ [EvPreSub p 0; EvDestroy p]).
Proof.
  intros Hp [Hbelow Hsh Hdead Honce Hpair].
  split.
  - intros q hq [_ Hq]%lookup_delete_Some. eauto.
  - intros q hq [_ Hq]%lookup_delete_Some. eauto.
  - intros q. rewrite destroyed_app. cbn.
    intros [Hq|Hq]%elem_of_app.
    + destruct (Hdead q Hq) as [Hnone ?]. split; [|done].
      rewrite lookup_delete_ne; [done|]. intros ->. congruence.
    + apply list_elem_of_singleton in Hq as ->.
      split; [apply lookup_delete_eq|]. by destruct (Hbelow p h Hp).
  - rewrite destroyed_app. cbn. apply NoDup_app. split; [done|].
    split; [|apply NoDup_singleton].
    intros q Hq ->%list_elem_of_singleton.
    destruct (Hdead p Hq). congruence.
  - apply paired_app; [done|]. apply paired_destroy.
Qed.

Lemma HInv_alloc hp b t h' n :
  length (elements h') = N.to_nat (size h') →
  HInv hp b t →
  HInv (<[Npos b := h']> hp) (Pos.succ b) (t ++ [EvCreate (Npos b) n]).
Proof.
  intros Hshape H. apply (HInv_log _ _ _ (EvCreate (Npos b) n) I).
  destruct H as [Hbelow Hsh Hdead Honce Hpair].
  split; try done.
  - intros q hq. rewrite lookup_insert. case_decide; [subst q|].
    + intros _. split; [done|]. lia.
    + intros Hq. destruct (Hbelow q hq Hq). split; [done|]. lia.
  - intros q hq. rewrite lookup_insert. case_decide; [subst q|]; eauto.
    by intros [= <-].
  - intros q Hq. destruct (Hdead q Hq) as [Hnone ?]. split; [|lia].
    rewrite lookup_insert_ne; [done|]. lia.
Qed.

Lemma HInv_released p h s :
  heap s !! p = Some h →
  HInv (heap s) (brk s) (trace s) →
  HInv (heap (released p h s)) (brk (released p h s)) (trace (released p h s)).
Proof.
  intros Hp H.
  rewrite released_heap, released_brk, released_trace.
  destruct (Atomic.preSub (refCount h) 1 =? 0) eqn:Hz.
  - apply Z.eqb_eq in Hz. rewrite Hz. by eapply HInv_destroy.
  - apply Z.eqb_neq in Hz. apply HInv_log; [done|].
    eapply HInv_update; eauto. cbn. by eapply h_shape.
Qed.

(** *** Heap and handles under the paired steps

    Every handle operation changes heap and handles by a sequence of the
    following steps, each of which keeps counters and handles in line. *)

Lemma CInv_range hp m p h :
  CInv hp m → hp !! p = Some h → 1 ≤ refCount h < Atomic.modulus.
Proof.
  intros [Hnull _ Hcount Hfew] Hp. destruct (Hcount p h Hp) as [-> ?].
  assert (p ≠ 0%N) by (intros ->; congruence).
  pose proof (Hfew p). lia.
Qed.

(** A new object that holds the null pointer. *)
Lemma CInv_add_null hp m this :
  m !! this = None →
  CInv hp m → CInv hp (<[this := 0%N]> m).
Proof.
  intros Hfresh [Hnull Hlive Hcount Hfew]. split; try done.
  - intros o p. rewrite lookup_insert. case_decide; [by intros [= <-]|]. eauto.
  - intros p h Hp. rewrite sharers_of_insert, sharers_of_fresh by done.
    rewrite decide_False by congruence. rewrite Nat.add_0_r. eauto.
  - intros p Hp. rewrite sharers_of_insert, sharers_of_fresh by done.
    rewrite decide_False by done. rewrite Nat.add_0_r. eauto.
Qed.

(** An object that holds the null pointer goes away. *)
Lemma CInv_remove_null hp m this :
  m !! this = Some 0%N →
  CInv hp m → CInv hp (delete this m).
Proof.
  intros Hthis [Hnull Hlive Hcount Hfew]. split; try done.
  - intros o p [_ Ho]%lookup_delete_Some. eauto.
  - intros p h Hp. destruct (Hcount p h Hp) as [Hrc Hpos].
    rewrite (sharers_of_delete m this 0%N p Hthis) in Hrc, Hpos.
    rewrite decide_False in Hrc, Hpos by congruence.
    rewrite Nat.add_0_r in Hrc, Hpos. done.
  - intros p Hp. pose proof (Hfew p Hp) as Hlt.
    rewrite (sharers_of_delete m this 0%N p Hthis) in Hlt. lia.
Qed.

(** A handle that holds the null pointer takes a reference on [Y], which
    the counter of [Y] can still count. *)
Lemma CInv_acquire hp m this Y hY :
  m !! this = Some 0%N → Y ≠ 0%N → hp !! Y = Some hY →
  Z.of_nat (sharers_of (<[this := Y]> m) Y) < Atomic.modulus →
  CInv hp m → CInv (<[Y := Header_ref hY]> hp) (<[this := Y]> m).
Proof.
  intros Hthis HY HhY Hroom H.
  pose proof (CInv_range _ _ _ _ H HhY) as Hrange.
  destruct H as [Hnull Hlive Hcount Hfew].
  rewrite sharers_of_insert, decide_True in Hroom by done.
  split.
  - by rewrite lookup_insert_ne.
  - intros o p Ho Hp. rewrite lookup_insert. case_decide; [done|].
    apply lookup_insert_Some in Ho as [[_ <-]|[_ Ho]]; [by destruct H|eauto].
  - intros p h. rewrite sharers_of_insert.
    rewrite lookup_insert. case_decide as Hp.
    + subst p. intros [= <-].
      destruct (Hcount Y hY HhY) as [Hrc Hpos].
      rewrite (sharers_of_delete m this 0%N Y Hthis) in Hrc, Hpos.
      rewrite decide_False in Hrc, Hpos by congruence.
      cbn. rewrite preAdd_1 by lia. lia.
    + intros Hh.
      destruct (Hcount p h Hh) as [Hrc Hpos].
      rewrite (sharers_of_delete m this 0%N p Hthis) in Hrc, Hpos.
      rewrite decide_False in Hrc, Hpos by congruence. done.
  - intros p Hp. rewrite sharers_of_insert. case_decide as HpY.
    + by subst p.
    + pose proof (Hfew p Hp) as Hlt.
      rewrite (sharers_of_delete m this 0%N p Hthis) in Hlt. lia.
Qed.

(** A handle on [X] gives its reference up and holds the null pointer. *)
Lemma CInv_drop hp m this X hX :
  m !! this = Some X → X ≠ 0%N → hp !! X = Some hX →
  CInv hp m → CInv (heap_released X hX hp) (<[this := 0%N]> m).
Proof.
  intros Hthis HX HhX H.
  pose proof (CInv_range _ _ _ _ H HhX) as Hrange.
  destruct H as [Hnull Hlive Hcount Hfew].
  destruct (Hcount X hX HhX) as [HrcX HposX].
  rewrite (sharers_of_delete m this X X Hthis) in HrcX, HposX.
  rewrite decide_True in HrcX, HposX by done.
  unfold heap_released. rewrite preSub_1 by lia.
  split.
  - destruct (_ =? 0); [by rewrite lookup_delete_ne | by rewrite lookup_insert_ne].
  - intros o p Ho Hp.
    apply lookup_insert_Some in Ho as [[_ <-]|[Hne Ho]]; [done|].
    destruct (decide (p = X)) as [->|HpX].
    + destruct (refCount hX - 1 =? 0) eqn:Hz; [|by rewrite lookup_insert_eq].
      apply Z.eqb_eq in Hz.
      assert (Hnone : sharers_of (delete this m) X = 0%nat) by lia.
      destruct (proj1 (sharers_of_zero _ _) Hnone o).
      by rewrite lookup_delete_ne.
    + destruct (refCount hX - 1 =? 0);
        [rewrite lookup_delete_ne by done | rewrite lookup_insert_ne by done];
        eauto.
  - intros p h Hp. rewrite sharers_of_insert.
    assert (HpX : p = X ∧ refCount hX - 1 ≠ 0 ∧ h = snd (Header_unref hX)
                  ∨ p ≠ X ∧ hp !! p = Some h).
    { destruct (refCount hX - 1 =? 0) eqn:Hz.
      - apply lookup_delete_Some in Hp as [? ?]. by right.
      - apply Z.eqb_neq in Hz.
        apply lookup_insert_Some in Hp as [[<- <-]|[? ?]]; [by left | by right]. }
    destruct HpX as [(-> & Hz & ->)|[HpX Hh]].
    + rewrite decide_False by done. cbn. rewrite preSub_1 by lia. lia.
    + assert (p ≠ 0%N) by congruence.
      rewrite decide_False by done.
      destruct (Hcount p h Hh) as [Hrc Hpos].
      rewrite (sharers_of_delete m this X p Hthis) in Hrc, Hpos.
      rewrite decide_False in Hrc, Hpos by done.
      rewrite Nat.add_0_r in *. done.
  - intros p Hp. rewrite sharers_of_insert, decide_False by done.
    pose proof (Hfew p Hp) as Hlt.
    rewrite (sharers_of_delete m this X p Hthis) in Hlt. lia.
Qed.

(** A handle that holds the null pointer adopts a fresh block. *)
Lemma CInv_adopt hp m this q h' :
  m !! this = Some 0%N → q ≠ 0%N → hp !! q = None → refCount h' = 1 →
  CInv hp m → CInv (<[q := h']> hp) (<[this := q]> m).
Proof.
  intros Hthis Hq Hfree Hrc [Hnull Hlive Hcount Hfew].
  assert (Hnobody : sharers_of m q = 0%nat).
  { apply sharers_of_zero. intros o Ho.
    destruct (Hlive o q Ho Hq). congruence. }
  assert (Hnone : sharers_of (delete this m) q = 0%nat).
  { rewrite (sharers_of_delete m this 0%N q Hthis) in Hnobody. lia. }
  split.
  - by rewrite lookup_insert_ne.
  - intros o p Ho Hp. rewrite lookup_insert. case_decide; [done|].
    apply lookup_insert_Some in Ho as [[_ <-]|[_ Ho]]; [done|eauto].
  - intros p h. rewrite sharers_of_insert.
    rewrite lookup_insert. case_decide as Hpq.
    + subst p. intros [= <-]. lia.
    + intros Hh.
      destruct (Hcount p h Hh) as [Hrcp Hpos].
      rewrite (sharers_of_delete m this 0%N p Hthis) in Hrcp, Hpos.
      rewrite decide_False in Hrcp, Hpos by congruence. done.
  - intros p Hp. rewrite sharers_of_insert. case_decide as HpY.
    + subst p. assert (0 < Atomic.modulus - 1) by done. lia.
    + pose proof (Hfew p Hp) as Hlt.
      rewrite (sharers_of_delete m this 0%N p Hthis) in Hlt. lia.
Qed.

(** The elements of a live block are overwritten. *)
Lemma CInv_update hp m p h h' :
  hp !! p = Some h → refCount h' = refCount h →
  CInv hp m → CInv (<[p := h']> hp) m.
Proof.
  intros Hp Hrc [Hnull Hlive Hcount Hfew]. split; try done.
  - rewrite lookup_insert_ne; [done|]. intros ->. congruence.
  - intros o q Ho Hq. rewrite lookup_insert. case_decide; eauto.
  - intros q hq. rewrite lookup_insert. case_decide; [subst q|]; eauto.
    intros [= <-]. rewrite Hrc. eauto.
Qed.

(** *** One operation: heap and allocator *)

Lemma Step_refl s : Step s s.
Proof. split; [done|done|]. intros p h h' ? ?. congruence. Qed.

Lemma Step_trans s1 s2 s3 :
  (∀ p h, heap s1 !! p = Some h → (p < Npos (brk s1))%N) →
  Step s1 s2 → Step s2 s3 → Step s1 s3.
Proof.
  intros Hbelow [Hb1 Hd1 Hs1] [Hb2 Hd2 Hs2]. split.
  - lia.
  - intros p Hp Hnone. apply Hd2; [lia|]. by apply Hd1.
  - intros p h h'' Hp Hp''.
    destruct (heap s2 !! p) as [h'|] eqn:Hp'.
    + rewrite (Hs2 p h' h'' Hp' Hp''). eauto.
    + pose proof (Hbelow p h Hp). rewrite Hd2 in Hp''; [done|lia|done].
Qed.

Lemma Step_objs s f : Step s (set_objs f s).
Proof. split; [done|done|]. intros p h h' ? ?. cbn in *. congruence. Qed.

Lemma Step_log s e : Step s (log e s).
Proof. split; [done|done|]. intros p h h' ? ?. cbn in *. congruence. Qed.

Lemma Step_released s p h :
  heap s !! p = Some h → Step s (released p h s).
Proof.
  intros Hp. split.
  - by rewrite released_brk.
  - intros q _ Hq. rewrite released_heap_ne; [done|]. intros ->. congruence.
  - intros q hq hq' Hq. rewrite released_heap.
    destruct (_ =? 0).
    + intros [_ Hq']%lookup_delete_Some. congruence.
    + rewrite lookup_insert. case_decide; [subst q|]; [|congruence].
      intros [= <-]. cbn. congruence.
Qed.

Lemma Step_alloc s h' m t :
  heap s !! Npos (brk s) = None →
  Step s {| heap := <[Npos (brk s) := h']> (heap s); objs := m;
            brk := Pos.succ (brk s); trace := t |}.
Proof.
  intros Hfree. split; cbn.
  - lia.
  - intros q Hq Hnone. rewrite lookup_insert_ne; [done|]. lia.
  - intros q hq hq' Hq. rewrite lookup_insert_ne; [congruence|].
    intros <-. congruence.
Qed.

Lemma HInv_free hp b t : HInv hp b t → hp !! Npos b = None.
Proof.
  intros H. destruct (hp !! Npos b) as [h|] eqn:E; [|done].
  destruct (h_below _ _ _ H _ _ E). lia.
Qed.

Lemma HInv_below hp b t p h :
  HInv hp b t → hp !! p = Some h → (p < Npos b)%N.
Proof. intros H Hp. by destruct (h_below _ _ _ H _ _ Hp). Qed.

Lemma Step_objs_r s s1 f : Step s s1 → Step s (set_objs f s1).
Proof. by intros []. Qed.

Lemma Step_log_r s s1 e : Step s s1 → Step s (log e s1).
Proof. by intros []. Qed.

Lemma Step_update_r s s1 p h h' :
  heap s1 !! p = Some h → size h' = size h →
  Step s s1 → Step s (set_heap (insert p h') s1).
Proof.
  intros Hp Hsize [Hb Hd Hs]. split; [done| |]; cbn.
  - intros q Hq Hnone. rewrite lookup_insert_ne; [eauto|].
    intros ->. rewrite Hd in Hp; done.
  - intros q hq hq' Hq. rewrite lookup_insert. case_decide; [subst q|]; [|eauto].
    intros [= <-]. rewrite Hsize. eauto.
Qed.

Lemma Step_released_r s s1 p h :
  heap s1 !! p = Some h → Step s s1 → Step s (released p h s1).
Proof.
  intros Hp [Hb Hd Hs]. split.
  - by rewrite released_brk.
  - intros q Hq Hnone. rewrite released_heap_ne; [eauto|].
    intros ->. rewrite Hd in Hp; done.
  - intros q hq hq' Hq. rewrite released_heap.
    destruct (_ =? 0).
    + intros [_ Hq']%lookup_delete_Some. eauto.
    + rewrite lookup_insert. case_decide; [subst q|]; [|eauto].
      intros [= <-]. cbn. eauto.
Qed.

Lemma size_insert_fresh (m : gmap nat N) this q :
  m !! this = None → base.size (<[this := q]> m) = S (base.size m).
Proof. apply map_size_insert_None. Qed.

Lemma size_insert_over (m : gmap nat N) this q q' :
  m !! this = Some q' → base.size (<[this := q]> m) = base.size m.
Proof. intros H. by rewrite map_size_insert, H. Qed.

(** *** One operation: the invariant *)

Ltac show_good :=
  cbn [post]; unfold good, set_objs, set_heap, log;
  cbn [heap objs brk trace].

Ltac case_header s this X H :=
  destruct (objs s !! this) as [X|] eqn:H;
  [ rewrite (bind_Ok _ _ _ _ _ (get_header_Ok _ _ _ H))
  | rewrite (bind_Undefined _ _ _ (get_header_None _ _ H)); exact I ].

Lemma few_objs s s' : objs s' = objs s → few s → few s'.
Proof. intros Hobjs Hfew p Hp. unfold sharers. rewrite Hobjs. by apply Hfew. Qed.

Lemma few_of_size s :
  Z.of_nat (base.size (objs s)) < Atomic.modulus → few s.
Proof.
  intros Hb p _. pose proof (sharers_of_le (objs s) p). unfold sharers. lia.
Qed.

Lemma few_sharers_few s : few_sharers s = true → few s.
Proof.
  intros H%bool_decide_eq_true p Hp.
  destruct (sharers s p) as [|n] eqn:Hn; [done|].
  destruct (sharers_of_exists (objs s) p) as [o Ho]; [unfold sharers in Hn; lia|].
  rewrite <- Hn. by apply (H o p Ho).
Qed.

Lemma few_few_sharers s : few s → few_sharers s = true.
Proof.
  intros H. apply bool_decide_eq_true. intros o p _ Hp. by apply H.
Qed.

Lemma ctor_default_good this s :
  HInv (heap s) (brk s) (trace s) → post (good s) (ctor_default this s).
Proof.
  intros HH. unfold ctor_default, fresh_object, bind.
  destruct (objs s !! this) eqn:Hthis; [exact I|]. unfold modify_state.
  split; [apply Step_objs|]. show_good.
  split; [by rewrite size_insert_fresh|].
  split; [done|]. intros HC _. by apply CInv_add_null.
Qed.

Lemma ctor_sized_good ok this n s :
  HInv (heap s) (brk s) (trace s) → post (good s) (ctor_sized ok this n s).
Proof.
  intros HH. unfold ctor_sized, fresh_object, bind at 1.
  destruct (objs s !! this) eqn:Hthis; [exact I|].
  destruct ok; unfold create, bind, set_header, modify_state.
  - pose proof (HInv_free _ _ _ HH) as Hfree.
    split; [by apply Step_objs_r, Step_alloc|]. show_good.
    split; [by rewrite size_insert_fresh|].
    split; cbn [heap objs brk trace].
    + apply HInv_alloc; [|done]. cbn. apply length_replicate.
    + intros HC _. rewrite <- (insert_insert_eq (objs s) this _ 0%N).
      apply CInv_adopt; [apply lookup_insert_eq|done|done|done|].
      by apply CInv_add_null.
  - split; [apply Step_refl|]. split; [lia|]. split; [done|]. by intros HC _.
Qed.

Lemma ctor_copy_good this source s :
  HInv (heap s) (brk s) (trace s) → post (good s) (ctor_copy this source s).
Proof.
  intros HH. unfold ctor_copy, fresh_object, bind at 1.
  destruct (objs s !! this) eqn:Hthis; [exact I|].
  case_header s source Y Hsource.
  unfold set_header, bind at 1, modify_state at 1.
  erewrite bind_Ok; [|apply get_header_Ok; cbn; apply lookup_insert_eq].
  case_decide as HY.
  - destruct (heap s !! Y) as [hY|] eqn:HhY; last first.
    { unfold ref. rewrite bind_Undefined; [exact I|]. by apply deref_None. }
    rewrite (ref_Ok Y hY) by done.
    split; [eapply Step_log_r, Step_update_r, Step_objs; by cbn|]. show_good.
    split; [by rewrite size_insert_fresh|].
    split; cbn [heap objs brk trace].
    + apply HInv_log; [done|]. eapply HInv_update; eauto. cbn.
      by eapply h_shape.
    + intros HC Hfew. pose proof (Hfew Y HY) as Hroom.
      unfold sharers in Hroom; cbn [objs] in Hroom.
      rewrite <- (insert_insert_eq (objs s) this _ 0%N).
      apply CInv_acquire; [apply lookup_insert_eq|done|done| |].
      * by rewrite insert_insert_eq.
      * by apply CInv_add_null.
  - assert (Y = 0%N) as -> by (by destruct (decide (Y = 0%N)); [|destruct HY]).
    unfold ret. split; [apply Step_objs|]. show_good.
    split; [by rewrite size_insert_fresh|].
    split; [done|]. intros HC _. by apply CInv_add_null.
Qed.

Lemma release_cases X s :
  release X s = Undefined
  ∨ (X = 0%N ∧ release X s = Ok tt s)
  ∨ (∃ hX, X ≠ 0%N ∧ heap s !! X = Some hX
           ∧ release X s = Ok tt (released X hX s)).
Proof.
  destruct (decide (X = 0%N)) as [->|HX].
  - right. left. split; [done|]. apply release_null.
  - destruct (heap s !! X) as [hX|] eqn:HhX.
    + right. right. exists hX. split; [done|]. split; [done|].
      by apply release_Ok.
    + left. unfold release, unref_and_destroy, unref.
      rewrite decide_True by done.
      rewrite bind_Undefined; [done|].
      rewrite bind_Undefined; [done|]. by apply deref_None.
Qed.

(** The handle [this] lets go of its block. *)
Lemma dropped_inv s this X s1 :
  HInv (heap s) (brk s) (trace s) → objs s !! this = Some X →
  (X = 0%N ∧ s1 = s
   ∨ ∃ hX, X ≠ 0%N ∧ heap s !! X = Some hX ∧ s1 = released X hX s) →
  Step s s1 ∧ objs s1 = objs s
  ∧ HInv (heap s1) (brk s1) (trace s1)
  ∧ (CInv (heap s) (objs s) → CInv (heap s1) (<[this := 0%N]> (objs s))).
Proof.
  intros HH Hthis [[-> ->]|(hX & HX & HhX & ->)].
  - split; [apply Step_refl|]. split; [done|]. split; [done|].
    by rewrite insert_id.
  - split; [by apply Step_released|]. split; [apply released_objs|].
    split; [by apply HInv_released|].
    intros HC. rewrite released_heap_eq. by apply CInv_drop.
Qed.

(** The handle [this], holding the null pointer, takes up [Y]. *)
Lemma acquired_inv s1 m this Y s' :
  HInv (heap s1) (brk s1) (trace s1) →
  objs s1 = m →
  (if decide (Y ≠ 0%N) then ref Y else ret tt)
    (set_objs (insert this Y) s1) = Ok tt s' →
  Step s1 s' ∧ objs s' = <[this := Y]> m
  ∧ HInv (heap s') (brk s') (trace s')
  ∧ (CInv (heap s1) (<[this := 0%N]> m) → few s' → CInv (heap s') (objs s')).
Proof.
  intros HH Hm. case_decide as HY.
  - destruct (heap s1 !! Y) as [hY|] eqn:HhY; last first.
    { unfold ref. rewrite bind_Undefined; [done|]. by apply deref_None. }
    rewrite (ref_Ok Y hY) by done. intros [= <-].
    split; [eapply Step_log_r, Step_update_r, Step_objs; by cbn|].
    unfold few, sharers, set_objs, set_heap, log; cbn [heap objs brk trace].
    split; [by rewrite Hm|]. split.
    + apply HInv_log; [done|]. eapply HInv_update; eauto. cbn.
      by eapply h_shape.
    + intros HC Hfew. pose proof (Hfew Y HY) as Hroom.
      rewrite Hm in Hroom |- *. rewrite <- (insert_insert_eq m this _ 0%N).
      apply CInv_acquire; [apply lookup_insert_eq|done|done| |done].
      by rewrite insert_insert_eq.
  - assert (Y = 0%N) as -> by (by destruct (decide (Y = 0%N)); [|destruct HY]).
    intros [= <-]. split; [apply Step_objs|].
    unfold set_objs; cbn [heap objs brk trace].
    rewrite Hm. done.
Qed.

Lemma acquire_defined Y s2 :
  (if decide (Y ≠ 0%N) then ref Y else ret tt) s2 = Undefined
  ∨ ∃ s', (if decide (Y ≠ 0%N) then ref Y else ret tt) s2 = Ok tt s'.
Proof.
  case_decide as HY; [|right; by eexists].
  destruct (heap s2 !! Y) as [hY|] eqn:HhY.
  - right. eexists. by apply ref_Ok.
  - left. unfold ref. rewrite bind_Undefined; [done|]. by apply deref_None.
Qed.

Lemma assign_good this source s :
  HInv (heap s) (brk s) (trace s) → post (good s) (assign this source s).
Proof.
  intros HH. unfold assign.
  case_header s this X Hthis. case_header s source Y Hsource.
  case_decide as HXY; last first.
  { unfold ret. split; [apply Step_refl|]. split; [lia|]. split; [done|].
    by intros HC _. }
  destruct (release_cases X s) as [Hr|Hr].
  { rewrite bind_Undefined; [exact I|done]. }
  assert (∃ s1, release X s = Ok tt s1 ∧
                (X = 0%N ∧ s1 = s ∨ ∃ hX, X ≠ 0%N ∧ heap s !! X = Some hX
                                         ∧ s1 = released X hX s))
    as (s1 & Hrel & Hcase).
  { destruct Hr as [[-> Hr]|(hX & ? & ? & Hr)]; eexists; (split; [exact Hr|]);
      [left|right]; eauto. }
  rewrite (bind_Ok _ _ _ _ _ Hrel).
  destruct (dropped_inv s this X s1 HH Hthis Hcase) as (HS1 & Hobjs & HH1 & HC1).
  erewrite bind_Ok; [|apply get_header_Ok; rewrite Hobjs; exact Hsource].
  unfold set_header, bind at 1, modify_state at 1.
  erewrite bind_Ok;
    [|apply get_header_Ok; unfold set_objs; cbn [objs]; apply lookup_insert_eq].
  destruct (acquire_defined Y (set_objs (insert this Y) s1)) as [->|[s' Hs']];
    [exact I|].
  rewrite Hs'.
  destruct (acquired_inv s1 (objs s) this Y s' HH1 Hobjs Hs')
    as (HS2 & Hobjs' & HH2 & HC2).
  split.
  { eapply Step_trans; eauto. intros p h. by eapply HInv_below. }
  rewrite Hobjs'. split; [rewrite (size_insert_over _ _ _ _ Hthis); lia|].
  split; [done|]. intros HC Hfew. rewrite <- Hobjs'. auto.
Qed.

Lemma dtor_good this s :
  HInv (heap s) (brk s) (trace s) → post (good s) (dtor this s).
Proof.
  intros HH. unfold dtor.
  case_header s this X Hthis.
  destruct (release_cases X s) as [Hr|Hr].
  { rewrite bind_Undefined; [exact I|done]. }
  assert (∃ s1, release X s = Ok tt s1 ∧
                (X = 0%N ∧ s1 = s ∨ ∃ hX, X ≠ 0%N ∧ heap s !! X = Some hX
                                         ∧ s1 = released X hX s))
    as (s1 & Hrel & Hcase).
  { destruct Hr as [[-> Hr]|(hX & ? & ? & Hr)]; eexists; (split; [exact Hr|]);
      [left|right]; eauto. }
  rewrite (bind_Ok _ _ _ _ _ Hrel).
  destruct (dropped_inv s this X s1 HH Hthis Hcase) as (HS1 & Hobjs & HH1 & HC1).
  unfold modify_state. split; [by apply Step_objs_r|]. show_good.
  rewrite Hobjs. split; [rewrite map_size_delete, Hthis; cbn; lia|].
  split; [done|]. intros HC _. cbn [heap objs brk trace].
  rewrite <- (delete_insert_eq (objs s) this 0%N).
  apply CInv_remove_null; [apply lookup_insert_eq|auto].
Qed.

Lemma heap_released_insert_ne X hX q h' (hp : gmap N Header) :
  q ≠ X →
  <[q := h']> (heap_released X hX hp) = heap_released X hX (<[q := h']> hp).
Proof.
  intros Hq. unfold heap_released. destruct (_ =? 0).
  - by rewrite delete_insert_ne.
  - by apply insert_insert_ne.
Qed.

Lemma heap_released_lookup_ne X hX q (hp : gmap N Header) :
  q ≠ X → heap_released X hX hp !! q = hp !! q.
Proof.
  intros Hq. unfold heap_released. destruct (_ =? 0).
  - by rewrite lookup_delete_ne.
  - by rewrite lookup_insert_ne.
Qed.

Lemma unshared_good this X hX s :
  HInv (heap s) (brk s) (trace s) →
  objs s !! this = Some X → X ≠ 0%N → heap s !! X = Some hX →
  good s (unshared this X hX s).
Proof.
  intros HH Hthis HX HhX.
  pose proof (HInv_free _ _ _ HH) as Hfree.
  assert (Hfresh : Npos (brk s) ≠ X) by (intros <-; congruence).
  assert (Hshape : length (elements (unshared_copy hX))
                   = N.to_nat (size (unshared_copy hX))).
  { pose proof (h_shape _ _ _ HH _ _ HhX) as Hlen.
    by rewrite unshared_copy_elements. }
  split; [|split; [|split]].
  - unfold unshared. apply Step_released_r; [|by apply Step_alloc].
    cbn. by rewrite lookup_insert_ne.
  - rewrite unshared_objs, (size_insert_over _ _ _ _ Hthis). lia.
  - unfold unshared. apply HInv_released; cbn [heap brk trace].
    + by rewrite lookup_insert_ne.
    + apply HInv_alloc; [done|]. by apply HInv_log.
  - intros HC _. unfold unshared. rewrite released_heap_eq, released_objs.
    cbn [heap objs].
    rewrite <- heap_released_insert_ne by done.
    rewrite <- (insert_insert_eq (objs s) this _ 0%N).
    apply CInv_adopt; [apply lookup_insert_eq|done| |done|].
    + by rewrite heap_released_lookup_ne.
    + by apply CInv_drop.
Qed.

Lemma modify_good ok this s :
  HInv (heap s) (brk s) (trace s) → post (good s) (modify ok this s).
Proof.
  intros HH.
  destruct (objs s !! this) as [X|] eqn:Hthis; last first.
  { unfold modify. rewrite bind_Undefined; [exact I|]. by apply get_header_None. }
  destruct (decide (X = 0%N)) as [->|HX].
  { unfold modify. rewrite (bind_Ok _ _ _ _ _ (get_header_Ok _ _ _ Hthis)).
    rewrite bind_Undefined; [exact I|]. unfold deref. by rewrite decide_True. }
  destruct (heap s !! X) as [hX|] eqn:HhX; last first.
  { unfold modify. rewrite (bind_Ok _ _ _ _ _ (get_header_Ok _ _ _ Hthis)).
    rewrite bind_Undefined; [exact I|]. by apply deref_None. }
  assert (Hlog : good s (log (EvGet X (refCount hX)) s)).
  { split; [apply Step_log|]. split; [cbn; lia|].
    split; [by apply HInv_log|]. by intros HC _. }
  destruct (decide (refCount hX = 1)) as [Hrc|Hrc].
  { rewrite (modify_exclusive ok this X hX) by done. by rewrite <- Hrc. }
  destruct ok.
  - rewrite (modify_shared_Ok this X hX); try done.
    + by apply unshared_good.
    + pose proof (HInv_free _ _ _ HH). intros ->. congruence.
  - by rewrite (modify_shared_fail this X hX).
Qed.

Lemma set_good ok this i x s :
  HInv (heap s) (brk s) (trace s) → post (good s) (set ok this i x s).
Proof.
  intros HH. pose proof (modify_good ok this s HH) as Hmod.
  unfold set. unfold bind at 1.
  destruct (modify ok this s) as [[] s1|s1|]; [|done|done].
  destruct Hmod as (HS & Hsz & HH1 & HC1).
  case_header s1 this q Hq.
  destruct (decide (q = 0%N)) as [->|Hq0].
  { rewrite bind_Undefined; [exact I|]. unfold deref. by rewrite decide_True. }
  destruct (heap s1 !! q) as [hq|] eqn:Hhq; last first.
  { rewrite bind_Undefined; [exact I|]. by apply deref_None. }
  rewrite (bind_Ok _ _ _ _ _ (deref_Ok _ _ _ Hq0 Hhq)).
  destruct (decide (N.to_nat i < length (elements hq))%nat) as [Hi|Hi];
    last first.
  { unfold store. rewrite (bind_Ok _ _ _ _ _ (deref_Ok _ _ _ Hq0 Hhq)).
    by rewrite decide_False. }
  rewrite (store_Ok q i x hq) by done.
  split; [by eapply Step_update_r|]. split; [done|].
  split; cbn [set_heap heap objs brk trace].
  - eapply HInv_update; eauto. cbn. rewrite length_insert.
    by eapply h_shape.
  - intros HC Hfew. eapply CInv_update; [done|done|].
    apply HC1; [done|]. by eapply few_objs; [|exact Hfew].
Qed.

Lemma exec_good o s :
  HInv (heap s) (brk s) (trace s) → post (good s) (exec o s).
Proof.
  destruct o; cbn [exec];
    auto using ctor_default_good, ctor_sized_good, ctor_copy_good,
               assign_good, modify_good, set_good, dtor_good.
Qed.

(** *** Progress *)


(** *** Runs *)

Lemma Inv_init : Inv init.
Proof.
  split; cbn.
  - split; cbn; try done.
    + intros p Hp. by apply elem_of_nil in Hp.
    + apply NoDup_nil_2.
  - split; done.
Qed.

Lemma run_app (ops1 : list op) : ∀ (ops2 : list op) s,
  run (ops1 ++ ops2) s
  = match run ops1 s with Some s1 => run ops2 s1 | None => None end.
Proof.
  induction ops1 as [|o ops1 IH]; intros ops2 s; [done|].
  cbn [app run]. destruct (exec o s) as [[] s1|s1|]; [apply IH|apply IH|done].
Qed.


(** Heap, allocator and log stay in order along every defined run. *)
Lemma run_HInv ops : ∀ s s',
  HInv (heap s) (brk s) (trace s) →
  run ops s = Some s' →
  Step s s' ∧ HInv (heap s') (brk s') (trace s').
Proof.
  induction ops as [|o ops IH]; intros s s' HH Hrun; cbn in Hrun.
  - injection Hrun as <-. split; [apply Step_refl|done].
  - pose proof (exec_good o s HH) as Hgood.
    assert (∃ s1, good s s1 ∧ run ops s1 = Some s')
      as (s1 & (HS & Hsz & HH1 & HC1) & Hrun1).
    { destruct (exec o s) as [[] s1|s1|]; [by exists s1|by exists s1|done]. }
    destruct (IH s1 s' HH1 Hrun1) as [HS' HH'].
    split; [|done]. eapply Step_trans; eauto. intros p h. by eapply HInv_below.
Qed.

(** The whole invariant holds along every defined run during which no
    block ever has as many handles as the counter has values. *)
Lemma run_Inv ops : ∀ s s',
  Inv s →
  never_wraps ops s = true →
  run ops s = Some s' →
  Inv s'.
Proof.
  induction ops as [|o ops IH]; intros s s' HI Hnw Hrun; cbn in Hrun, Hnw.
  - by injection Hrun as <-.
  - pose proof (exec_good o s (inv_heap s HI)) as Hgood.
    assert (∃ s1, good s s1 ∧ run ops s1 = Some s'
                  ∧ few_sharers s1 = true ∧ never_wraps ops s1 = true)
      as (s1 & (HS & Hsz & HH1 & HC1) & Hrun1 & Hfew & Hnw1).
    { destruct (exec o s) as [[] s1|s1|]; [| |done];
        apply andb_true_iff in Hnw as [? ?]; by exists s1. }
    apply (IH s1 s'); [|done|done].
    split; [done|]. apply HC1; [apply HI|by apply few_sharers_few].
Qed.

Lemma run_good ops : ∀ s s',
  Inv s →
  Z.of_nat (base.size (objs s) + length ops) < Atomic.modulus →
  run ops s = Some s' →
  Step s s'
  ∧ (base.size (objs s') ≤ base.size (objs s) + length ops)%nat
  ∧ Inv s'.
Proof.
  induction ops as [|o ops IH]; intros s s' HI Hb Hrun; cbn in Hrun.
  - injection Hrun as <-. split; [apply Step_refl|]. split; [lia|done].
  - pose proof (exec_good o s (inv_heap s HI)) as Hgood.
    assert (∃ s1, good s s1 ∧ run ops s1 = Some s')
      as (s1 & (HS & Hsz & HH1 & HC1) & Hrun1).
    { destruct (exec o s) as [[] s1|s1|]; [by exists s1|by exists s1|done]. }
    cbn [length] in Hb.
    destruct (IH s1 s') as (HS' & Hsz' & HI'); [|lia|done|].
    { split; [done|]. apply HC1; [apply HI|]. apply few_of_size. lia. }
    split; [|split; [cbn [length]; lia|done]].
    eapply Step_trans; eauto. intros p h.
    apply (HInv_below _ _ _ _ _ (inv_heap s HI)).
Qed.

(** A run short enough never wraps a counter. *)
Lemma short_never_wraps ops : ∀ s,
  Inv s →
  Z.of_nat (base.size (objs s) + length ops) < Atomic.modulus →
  never_wraps ops s = true.
Proof.
  induction ops as [|o ops IH]; intros s HI Hb; [done|].
  cbn [never_wraps length] in *.
  pose proof (exec_good o s (inv_heap s HI)) as Hgood.
  assert (∀ s1, good s s1 → few_sharers s1 && never_wraps ops s1 = true)
    as Hnext.
  { intros s1 (HS & Hsz & HH1 & HC1).
    assert (few s1) as Hfew by (apply few_of_size; lia).
    apply andb_true_iff. split; [by apply few_few_sharers|].
    apply IH; [|lia]. split; [done|]. apply HC1; [apply HI|done]. }
  destruct (exec o s) as [[] s1|s1|]; auto.
Qed.

(** *** Reading [paired] *)




(** ** The claims *)

(** C6.  [unref] on a live block whose counter holds any value of
    [unsigned int]: the counter is decremented by exactly 1 (in the
    arithmetic of the counter, and as an integer whenever it was at least
    1), the call returns [true] if and only if the value after the
    decrement is exactly zero, and the whole of it is one counter
    operation: the log grows by the single event [EvPreSub], with no
    separate read of the counter.  Size and elements are untouched. *)
Theorem unref_decrement_and_test (s : State) (p : N) (h : Header) :
  p ≠ 0%N →
  heap s !! p = Some h →
  0 ≤ refCount h < Atomic.modulus →
  ∃ (b : bool) (h' : Header),
    unref p s = Ok b (log (EvPreSub p (refCount h')) (set_heap (insert p h') s))
    ∧ h' = snd (Header_unref h)
    ∧ refCount h' = (refCount h - 1) mod Atomic.modulus
    ∧ (1 ≤ refCount h → refCount h' = refCount h - 1)
    ∧ (b = true ↔ refCount h' = 0)
    ∧ size h' = size h
    ∧ elements h' = elements h.
Proof.
  intros Hp Hh Hrange.
  exists (fst (Header_unref h)), (snd (Header_unref h)).
  split.
  { unfold unref. rewrite (bind_Ok _ _ _ _ _ (deref_Ok _ _ _ Hp Hh)). reflexivity. }
  repeat split; cbn; try done.
  - intros ?. apply preSub_1. lia.
  - apply Z.eqb_eq.
  - apply Z.eqb_eq.
Qed.

(** C4.  Self-assignment [h = h], for a handle that is valid or not: the
    call returns with the very state it started from.  The handle's block
    pointer, the heap (so the block's elements and its reference count)
    and the log are unchanged: no [ref], no [unref], no [destroy] was
    executed.  The same holds whenever both sides reference the identical
    block. *)
Theorem assign_self (s : State) (this : nat) (p : N) :
  objs s !! this = Some p →
  (∃ s', assign this this s = Ok tt s'
         ∧ objs s' !! this = Some p
         ∧ heap s' = heap s
         ∧ trace s' = trace s
         ∧ s' = s)
  ∧ (∀ source, objs s !! source = Some p → assign this source s = Ok tt s).
Proof.
  intros Hthis.
  assert (Hsame : ∀ source, objs s !! source = Some p →
                            assign this source s = Ok tt s).
  { intros source Hsource. unfold assign.
    rewrite (bind_Ok _ _ _ _ _ (get_header_Ok _ _ _ Hthis)).
    rewrite (bind_Ok _ _ _ _ _ (get_header_Ok _ _ _ Hsource)).
    by rewrite decide_False by (intros Hne; by apply Hne). }
  split; [|exact Hsame].
  exists s. by rewrite (Hsame this Hthis).
Qed.

(** C8.  Sized construction, when the allocation succeeds: for every
    [n] the new handle is valid and [getSize] returns [n]; the block it
    owns has reference count 1 and [n] default-constructed elements. *)
Theorem ctor_sized_valid (s : State) (this : nat) (n : N) :
  objs s !! this = None →
  ∃ s', ctor_sized true this n s = Ok tt s'
        ∧ isValid this s' = Ok true s'
        ∧ getSize this s' = Ok n s'
        ∧ ∃ p h, objs s' !! this = Some p ∧ heap s' !! p = Some h
                 ∧ refCount h = 1
                 ∧ N.of_nat (length (elements h)) = n.
Proof.
  intros Hfresh. eexists. split.
  { unfold ctor_sized, fresh_object, bind, create. rewrite Hfresh. cbn. reflexivity. }
  split; [|split].
  - unfold isValid, bind, get_header. cbn. by rewrite lookup_insert_eq.
  - unfold getSize, bind, get_header, deref. cbn.
    rewrite lookup_insert_eq. cbn. by rewrite lookup_insert_eq.
  - eexists _, _. cbn. rewrite !lookup_insert_eq. repeat split.
    cbn. rewrite length_replicate. lia.
Qed.

(** The closed form of an assignment that changes the block. *)
Lemma assign_Ok (s : State) (this source : nat) (X Y : N) (hX hY : Header) :
  objs s !! this = Some X →
  objs s !! source = Some Y →
  X ≠ 0%N → Y ≠ 0%N → X ≠ Y →
  heap s !! X = Some hX →
  heap s !! Y = Some hY →
  assign this source s =
    Ok tt (log (EvPreAdd Y (refCount (Header_ref hY)))
             (set_heap (insert Y (Header_ref hY))
                (set_objs (insert this Y) (released X hX s)))).
Proof.
  intros Hthis Hsource HX HY HXY HhX HhY. unfold assign.
  rewrite (bind_Ok _ _ _ _ _ (get_header_Ok _ _ _ Hthis)).
  rewrite (bind_Ok _ _ _ _ _ (get_header_Ok _ _ _ Hsource)).
  rewrite decide_True by done.
  rewrite (bind_Ok _ _ _ _ _ (release_Ok _ _ _ HX HhX)).
  erewrite bind_Ok; last first.
  { apply get_header_Ok. rewrite released_objs. exact Hsource. }
  unfold set_header at 1. unfold bind at 1. unfold modify_state at 1.
  erewrite bind_Ok; last first.
  { apply get_header_Ok. cbn. apply lookup_insert_eq. }
  rewrite decide_True by done.
  apply ref_Ok; [done|]. cbn. by rewrite released_heap_ne.
Qed.

(** C5.  Assignment [this = source] where [this] references the live block
    [X] and [source] a different live block [Y].  The counter of [X] is
    decremented by exactly 1 and [X] is destroyed exactly when the
    decrement reached 0; the counter of [Y] is incremented by exactly 1;
    the handle references [Y] afterwards; no other block is touched.  The
    log shows the order: the [unref] of [X] (and its [destroy]) come
    before the [ref] of [Y]; and the call is the release of [X], with the
    handles still as they were, followed by the adoption of [Y] and its
    [ref].  Decrement and increment are those of the
    [unsigned int] counter: they are the integer ones whenever the counter
    of [X] is at least 1 (as it is while a handle references [X]) and the
    counter of [Y] is below the largest [unsigned int]. *)
Theorem assign_other (s : State) (this source : nat) (X Y : N) (hX hY : Header) :
  objs s !! this = Some X →
  objs s !! source = Some Y →
  X ≠ 0%N → Y ≠ 0%N → X ≠ Y →
  heap s !! X = Some hX →
  heap s !! Y = Some hY →
  0 ≤ refCount hX < Atomic.modulus →
  0 ≤ refCount hY < Atomic.modulus →
  let vX := Atomic.preSub (refCount hX) 1 in
  let vY := Atomic.preAdd (refCount hY) 1 in
  ∃ s', assign this source s = Ok tt s'
        ∧ objs s' = <[this := Y]> (objs s)
        ∧ heap s' !! X =
            (if vX =? 0 then None
             else Some {| refCount := vX; size := size hX; elements := elements hX |})
        ∧ heap s' !! Y =
            Some {| refCount := vY; size := size hY; elements := elements hY |}
        ∧ (∀ q, q ≠ X → q ≠ Y → heap s' !! q = heap s !! q)
        ∧ trace s' =
            trace s ++ [EvPreSub X vX]
                    ++ (if vX =? 0 then [EvDestroy X] else [])
                    ++ [EvPreAdd Y vY]
        ∧ (1 ≤ refCount hX → vX = refCount hX - 1)
        ∧ (refCount hY < Atomic.modulus - 1 → vY = refCount hY + 1)
        ∧ ∃ s1, release X s = Ok tt s1
                ∧ objs s1 = objs s
                ∧ bind (set_header this Y) (λ _, ref Y) s1 = Ok tt s'.
Proof.
  intros Hthis Hsource HX HY HXY HhX HhY HrX HrY vX vY.
  eexists. split; [by eapply assign_Ok|].
  cbn. rewrite released_objs, released_heap, released_trace.
  fold vX. repeat split.
  - rewrite lookup_insert_ne by done.
    destruct (vX =? 0); [by rewrite lookup_delete_eq | by rewrite lookup_insert_eq].
  - by rewrite lookup_insert_eq.
  - intros q HqX HqY. rewrite lookup_insert_ne by done.
    destruct (vX =? 0); [by rewrite lookup_delete_ne | by rewrite lookup_insert_ne].
  - rewrite <- !app_assoc. cbn. by destruct (vX =? 0).
  - intros ?. apply preSub_1. lia.
  - intros ?. apply preAdd_1. lia.
  - exists (released X hX s).
    split; [by apply release_Ok|]. split; [apply released_objs|].
    unfold set_header, bind, modify_state.
    apply ref_Ok; [done|]. cbn. by rewrite released_heap_ne.
Qed.


(** C3.  [modify] on a valid handle whose block has reference count
    exactly 1 changes nothing: heap (block, size, elements, count), the
    handle's block pointer and the allocator are as before, and the log
    shows the read of the counter and no [create].  Through the mutating
    accessors: [getArray] and [operator[]] return the address of the same
    storage before and after; [set] writes the element in place, in the
    same block, with size and count unchanged and nothing allocated. *)
Theorem modify_exclusive_noop (s : State) (ok : bool) (this : nat) (p : N) (h : Header) :
  objs s !! this = Some p →
  p ≠ 0%N →
  heap s !! p = Some h →
  refCount h = 1 →
  ∃ s', modify ok this s = Ok tt s'
        ∧ heap s' = heap s
        ∧ objs s' = objs s
        ∧ brk s' = brk s
        ∧ trace s' = trace s ++ [EvGet p 1]
        ∧ getArray this s = Ok (ElemPtr p 0) s
        ∧ getArray this s' = Ok (ElemPtr p 0) s'
        ∧ (∀ i x, (N.to_nat i < length (elements h))%nat →
             ∃ s'', set ok this i x s = Ok tt s''
                    ∧ objs s'' = objs s
                    ∧ brk s'' = brk s
                    ∧ heap s'' =
                        <[p := {| refCount := 1; size := size h;
                                  elements := <[N.to_nat i := x]> (elements h) |}]>
                          (heap s)
                    ∧ trace s'' = trace s ++ [EvGet p 1]).
Proof.
  intros Hthis Hp Hh Hrc.
  exists (log (EvGet p 1) s).
  split; [by eapply modify_exclusive|].
  repeat split.
  - by eapply pointer_Ok.
  - by eapply pointer_Ok.
  - intros i x Hi. eexists. split; [by eapply set_exclusive|].
    cbn. unfold with_element. by rewrite Hrc.
Qed.



(** C2 (as the code has it).  On a valid handle, [set] first runs
    [modify]: it leaves a state [s1] in which the handle's block is
    exclusively owned (reference count 1), and the element is then written
    through that block; the log of the call starts with the read of the
    counter that [modify] makes.  The non-const [getArray] and
    [operator[]] do not run [modify]: they return the address of the
    current block and leave the state, log included, exactly as it was,
    whatever the reference count of the block; calling [modify] before
    them is left to the caller. *)
Theorem set_runs_modify_accessors_do_not
    (s : State) (this : nat) (p : N) (h : Header) :
  objs s !! this = Some p →
  p ≠ 0%N →
  heap s !! p = Some h →
  p ≠ Npos (brk s) →
  length (elements h) = N.to_nat (size h) →
  getArray this s = Ok (ElemPtr p 0) s
  ∧ (∀ i, index this i s = Ok (ElemPtr p i) s)
  ∧ (∀ i x, (N.to_nat i < length (elements h))%nat →
       ∃ s1 q hq,
         modify true this s = Ok tt s1
         ∧ objs s1 !! this = Some q
         ∧ heap s1 !! q = Some hq
         ∧ refCount hq = 1
         ∧ elements hq = elements h
         ∧ (∃ t, trace s1 = trace s ++ EvGet p (refCount h) :: t)
         ∧ set true this i x s
           = Ok tt (set_heap (insert q (with_element hq i x)) s1)).
Proof.
  intros Hthis Hp Hh Hfresh Hlen.
  split; [by eapply pointer_Ok|]. split; [intros i; by eapply pointer_Ok|].
  intros i x Hi.
  destruct (decide (refCount h = 1)) as [Hrc|Hrc].
  - exists (log (EvGet p 1) s), p, h.
    split; [by eapply modify_exclusive|].
    repeat split; try done.
    + exists []. cbn. by rewrite Hrc.
    + by eapply set_exclusive.
  - exists (unshared this p h s), (Npos (brk s)), (unshared_copy h).
    split; [by apply modify_shared_Ok|].
    split; [rewrite unshared_objs; apply lookup_insert_eq|].
    split; [by apply unshared_heap_new|].
    split; [done|].
    split; [by apply unshared_copy_elements|].
    split; [|by apply set_shared_Ok].
    rewrite unshared_trace. cbn. eauto.
Qed.

Lemma ctor_copy_Ok this source Y hY s :
  objs s !! this = None → objs s !! source = Some Y →
  Y ≠ 0%N → heap s !! Y = Some hY →
  ctor_copy this source s
  = Ok tt (log (EvPreAdd Y (refCount (Header_ref hY)))
             (set_heap (insert Y (Header_ref hY))
                (set_objs (insert this Y) s))).
Proof.
  intros Hthis Hsource HY HhY.
  unfold ctor_copy, fresh_object, bind at 1. rewrite Hthis.
  rewrite (bind_Ok _ _ _ _ _ (get_header_Ok _ _ _ Hsource)).
  unfold set_header, bind at 1, modify_state at 1.
  erewrite bind_Ok; [|apply get_header_Ok; cbn; apply lookup_insert_eq].
  rewrite decide_True by done. by apply ref_Ok.
Qed.

Lemma dtor_Ok this X hX s :
  objs s !! this = Some X → X ≠ 0%N → heap s !! X = Some hX →
  dtor this s = Ok tt (set_objs (delete this) (released X hX s)).
Proof.
  intros Hthis HX HhX. unfold dtor.
  rewrite (bind_Ok _ _ _ _ _ (get_header_Ok _ _ _ Hthis)).
  by rewrite (bind_Ok _ _ _ _ _ (release_Ok _ _ _ HX HhX)).
Qed.

(** Reading an element through a handle: [h[i]]. *)
Lemma read_Ok this p h i x s :
  objs s !! this = Some p → p ≠ 0%N → heap s !! p = Some h →
  elements h !! N.to_nat i = Some x →
  bind (index this i) load s = Ok x s.
Proof.
  intros Hthis Hp Hh Hi.
  erewrite bind_Ok; [|by eapply pointer_Ok]. by eapply load_Ok.
Qed.

(** C1.  Copy-on-write isolation.  [A] is a valid handle on a block of
    at least two elements [x0 :: x1 :: rest] (the claim's [1; 2; 3]), and
    [B] is copy-constructed from [A].  After [B.set(0, v)] (the claim's
    99): [A[0]] is still [x0], [B[0]] is [v], and [A[1]] and [B[1]] are
    both [x1].  After [A] is destroyed, [B] is still valid and its block
    holds [v :: x1 :: rest]. *)
Theorem cow_isolation (s : State) (A B : nat) (p : N) (h : Header)
    (x0 x1 v : Element) (rest : list Element) :
  objs s !! A = Some p →
  objs s !! B = None →
  p ≠ 0%N →
  p ≠ Npos (brk s) →
  heap s !! p = Some h →
  elements h = x0 :: x1 :: rest →
  length (elements h) = N.to_nat (size h) →
  1 ≤ refCount h < Atomic.modulus - 1 →
  ∃ sB sW sD q hq,
    ctor_copy B A s = Ok tt sB
    ∧ set true B 0 v sB = Ok tt sW
    ∧ bind (index A 0) load sW = Ok x0 sW
    ∧ bind (index B 0) load sW = Ok v sW
    ∧ bind (index A 1) load sW = Ok x1 sW
    ∧ bind (index B 1) load sW = Ok x1 sW
    ∧ dtor A sW = Ok tt sD
    ∧ isValid B sD = Ok true sD
    ∧ objs sD !! B = Some q
    ∧ heap sD !! q = Some hq
    ∧ elements hq = v :: x1 :: rest.
Proof.
  intros HA HB Hp Hfresh Hh Hel Hlen Hrc.
  assert (HAB : A ≠ B) by (intros ->; congruence).
  set (h2 := Header_ref h).
  set (sB := log (EvPreAdd p (refCount h2))
               (set_heap (insert p h2) (set_objs (insert B p) s))).
  assert (Hrc2 : refCount h2 = refCount h + 1) by (apply preAdd_1; lia).
  assert (HsB : ctor_copy B A s = Ok tt sB) by (by apply ctor_copy_Ok).
  assert (HBp : objs sB !! B = Some p) by apply lookup_insert_eq.
  assert (Hh2 : heap sB !! p = Some h2) by apply lookup_insert_eq.
  set (q := Npos (brk s)).
  set (hq := with_element (unshared_copy h2) 0 v).
  set (sU := unshared B p h2 sB).
  set (sW := set_heap (insert q hq) sU).
  assert (HsW : set true B 0 v sB = Ok tt sW).
  { apply (set_shared_Ok B 0 v p h2 sB); [done|done|done| |done|done|].
    - rewrite Hrc2. lia.
    - change (elements h2) with (elements h). rewrite Hel. cbn. lia. }
  assert (Hz : (Atomic.preSub (refCount h2) 1 =? 0) = false).
  { apply Z.eqb_neq. rewrite preSub_1 by lia. lia. }
  set (h3 := snd (Header_unref h2)).
  assert (HWp : heap sW !! p = Some h3).
  { unfold sW. cbn [set_heap heap]. rewrite lookup_insert_ne by done.
    unfold sU. rewrite unshared_heap, Hz. apply lookup_insert_eq. }
  assert (HWq : heap sW !! q = Some hq) by apply lookup_insert_eq.
  assert (HWA : objs sW !! A = Some p).
  { unfold sW. cbn [set_heap objs]. unfold sU. rewrite unshared_objs.
    rewrite lookup_insert_ne by done. unfold sB. cbn.
    by rewrite lookup_insert_ne. }
  assert (HWB : objs sW !! B = Some q).
  { unfold sW. cbn [set_heap objs]. unfold sU. rewrite unshared_objs.
    apply lookup_insert_eq. }
  assert (Helq : elements hq = v :: x1 :: rest).
  { unfold hq. cbn [with_element elements].
    rewrite (unshared_copy_elements h2) by done.
    cbn. by rewrite Hel. }
  set (sD := set_objs (delete A) (released p h3 sW)).
  exists sB, sW, sD, q, hq.
  split; [done|]. split; [done|].
  split; [eapply read_Ok; eauto; cbn; by rewrite Hel|].
  split; [eapply read_Ok; eauto; by rewrite Helq|].
  split; [eapply read_Ok; eauto; cbn; by rewrite Hel|].
  split; [eapply read_Ok; eauto; by rewrite Helq|].
  split; [by apply dtor_Ok|].
  assert (HDB : objs sD !! B = Some q).
  { unfold sD. cbn [set_objs objs]. rewrite lookup_delete_ne by done.
    by rewrite released_objs. }
  split; [unfold isValid; rewrite (bind_Ok _ _ _ _ _ (get_header_Ok _ _ _ HDB));
          unfold ret; by rewrite bool_decide_eq_true_2|].
  split; [done|]. split; [|done].
  unfold sD. cbn [set_objs heap]. by rewrite released_heap_ne.
Qed.

(** ** A counter that wraps *)




End RefCountedArray.

Arguments Ok {Element A} a s.
Arguments BadAlloc {Element A} s.
Arguments Undefined {Element A}.

(** ** The claims on concrete runs, with [int] elements *)

(** A block of three elements [1; 2; 3] with reference count [rc]. *)
Definition block123 (rc : Z) : @Header Z :=
  {| refCount := rc; size := 3; elements := [1; 2; 3] |}.

(** Handle 0 is the sole owner of block 1. *)
Definition st_one : @State Z :=
  {| heap := {[ 1%N := block123 1 ]};
     objs := {[ 0%nat := 1%N ]};
     brk := 2%positive;
     trace := [EvCreate 1 3; EvGet 1 1; EvGet 1 1; EvGet 1 1] |}.

(** Handles 0 and 1 share block 1. *)
Definition st_shared : @State Z :=
  {| heap := {[ 1%N := block123 2 ]};
     objs := {[ 0%nat := 1%N; 1%nat := 1%N ]};
     brk := 2%positive;
     trace := [EvCreate 1 3; EvGet 1 1; EvGet 1 1; EvGet 1 1; EvPreAdd 1 2] |}.

(** Handle 0 owns block 1, handle 1 owns block 2, handle 2 is invalid. *)
Definition st_mixed : @State Z :=
  {| heap := {[ 1%N := block123 1;
                2%N := {| refCount := 1; size := 2; elements := [7; 8] |} ]};
     objs := {[ 0%nat := 1%N; 1%nat := 2%N; 2%nat := 0%N ]};
     brk := 3%positive;
     trace := [EvCreate 1 3; EvGet 1 1; EvGet 1 1; EvGet 1 1; EvCreate 2 2;
               EvGet 2 1; EvGet 2 1] |}.

(** [st_one] and [st_shared] are what the program reaches. *)
Example st_one_reached :
  run 0 [OpSized true 0%nat 3%N; OpSet true 0%nat 0%N 1;
         OpSet true 0%nat 1%N 2; OpSet true 0%nat 2%N 3] init = Some st_one.
Proof. vm_compute. reflexivity. Qed.

Example st_shared_reached :
  run 0 [OpCopy 1%nat 0%nat] st_one = Some st_shared.
Proof. vm_compute. reflexivity. Qed.

Example st_mixed_reached :
  run 0 [OpSized true 1%nat 2%N; OpSet true 1%nat 0%N 7;
         OpSet true 1%nat 1%N 8; OpDefault 2%nat] st_one = Some st_mixed.
Proof. vm_compute. reflexivity. Qed.

(** C6 on [st_one]: the counter of block 1 goes from 1 to 0, [unref]
    returns [true]. *)
Lemma unref_decrement_and_test_witness :
  ∃ (b : bool) (h' : Header),
    unref 1 st_one
    = Ok b (log (EvPreSub 1 (refCount h')) (set_heap (insert 1%N h') st_one))
    ∧ h' = snd (Header_unref (block123 1))
    ∧ refCount h' = (refCount (block123 1) - 1) mod Atomic.modulus
    ∧ (1 ≤ refCount (block123 1) → refCount h' = refCount (block123 1) - 1)
    ∧ (b = true ↔ refCount h' = 0)
    ∧ size h' = size (block123 1)
    ∧ elements h' = elements (block123 1).
Proof.
  apply (unref_decrement_and_test st_one 1%N (block123 1)).
  - discriminate.
  - vm_compute. reflexivity.
  - vm_compute. split; [discriminate | reflexivity].
Defined.

(** C4 on [st_one]: handle 0 assigned to itself. *)
Lemma assign_self_witness :
  (∃ s', assign 0 0 st_one = Ok tt s'
         ∧ objs s' !! 0%nat = Some 1%N
         ∧ heap s' = heap st_one
         ∧ trace s' = trace st_one
         ∧ s' = st_one)
  ∧ (∀ source, objs st_one !! source = Some 1%N →
               assign 0 source st_one = Ok tt st_one).
Proof.
  apply (assign_self st_one 0%nat 1%N).
  vm_compute. reflexivity.
Defined.

(** C8 on [st_one]: a new handle 5 of size 4. *)
Lemma ctor_sized_valid_witness :
  ∃ s', ctor_sized 0 true 5 4 st_one = Ok tt s'
        ∧ isValid 5 s' = Ok true s'
        ∧ getSize 5 s' = Ok 4%N s'
        ∧ ∃ p h, objs s' !! 5%nat = Some p ∧ heap s' !! p = Some h
                 ∧ refCount h = 1
                 ∧ N.of_nat (length (elements h)) = 4%N.
Proof.
  apply (ctor_sized_valid 0 st_one 5%nat 4%N).
  vm_compute. reflexivity.
Defined.

(** C5 on [st_mixed]: handle 0 (on block 1, count 1) is assigned handle 1
    (on block 2, count 1): block 1 is destroyed, block 2 has count 2. *)
Lemma assign_other_witness :
  ∃ s', assign 0 1 st_mixed = Ok tt s'
        ∧ objs s' !! 0%nat = Some 2%N
        ∧ heap s' !! 1%N = None
        ∧ heap s' !! 2%N
          = Some {| refCount := 2; size := 2; elements := [7; 8] |}
        ∧ trace s'
          = trace st_mixed ++ [EvPreSub 1 0; EvDestroy 1; EvPreAdd 2 2].
Proof.
  destruct (assign_other st_mixed 0%nat 1%nat 1%N 2%N (block123 1)
              {| refCount := 1; size := 2; elements := [7; 8] |})
    as (s' & Hs' & Hobjs & HX & HY & _ & Ht & _).
  - vm_compute. reflexivity.
  - vm_compute. reflexivity.
  - discriminate.
  - discriminate.
  - discriminate.
  - vm_compute. reflexivity.
  - vm_compute. reflexivity.
  - vm_compute. split; [discriminate | reflexivity].
  - vm_compute. split; [discriminate | reflexivity].
  - exists s'. split; [exact Hs'|]. split; [by rewrite Hobjs|].
    split; [exact HX|]. split; [exact HY|]. exact Ht.
Defined.


(** C3 on [st_one]: handle 0 owns block 1 alone. *)
Lemma modify_exclusive_noop_witness :
  ∃ s', modify 0 true 0 st_one = Ok tt s'
        ∧ heap s' = heap st_one
        ∧ objs s' = objs st_one
        ∧ brk s' = brk st_one
        ∧ trace s' = trace st_one ++ [EvGet 1 1].
Proof.
  destruct (modify_exclusive_noop 0 st_one true 0%nat 1%N (block123 1))
    as (s' & Hs' & Hheap & Hobjs & Hbrk & Ht & _).
  - vm_compute. reflexivity.
  - discriminate.
  - vm_compute. reflexivity.
  - reflexivity.
  - exists s'. repeat split; assumption.
Defined.





(** C2 as the code has it, on [st_shared]: [set] through handle 1 unshares
    first; [getArray] and [operator[]] do not. *)
Lemma set_runs_modify_accessors_do_not_witness :
  getArray 1 st_shared = Ok (ElemPtr 1 0) st_shared
  ∧ (∀ i, index 1 i st_shared = Ok (ElemPtr 1 i) st_shared)
  ∧ ∃ s1 q hq,
      modify 0 true 1 st_shared = Ok tt s1
      ∧ objs s1 !! 1%nat = Some q
      ∧ heap s1 !! q = Some hq
      ∧ refCount hq = 1
      ∧ elements hq = [1; 2; 3]
      ∧ set 0 true 1 0 99 st_shared
        = Ok tt (set_heap (insert q (with_element hq 0 99)) s1).
Proof.
  destruct (set_runs_modify_accessors_do_not 0 st_shared 1%nat 1%N (block123 2))
    as (Hget & Hidx & Hset).
  - vm_compute. reflexivity.
  - discriminate.
  - vm_compute. reflexivity.
  - discriminate.
  - reflexivity.
  - split; [exact Hget|]. split; [exact Hidx|].
    destruct (Hset 0%N 99) as (s1 & q & hq & Hm & Hq & Hhq & Hrc & Hel & _ & Hs).
    + vm_compute. lia.
    + exists s1, q, hq. repeat split; assumption.
Defined.

(** C2 as the claim states it fails.  With handles 0 and 1 sharing block 1
    (reference count 2), the non-const [operator[]] and [getArray] on
    handle 1 return a pointer into block 1 and leave the state as it was:
    [modify] has not run (it would have changed the state), the block is
    still shared, and a write of 99 through the returned reference is seen
    through handle 0.  So it is not the case that, in every state the
    program reaches, the block behind the reference that [operator[]]
    returns is exclusively owned. *)
Lemma accessors_leave_block_shared :
  (run 0 [OpCopy 1%nat 0%nat] st_one = Some st_shared
   ∧ index 1 0 st_shared = Ok (ElemPtr 1 0) st_shared
   ∧ getArray 1 st_shared = Ok (ElemPtr 1 0) st_shared
   ∧ refCount <$> heap st_shared !! 1%N = Some 2
   ∧ modify 0 true 1 st_shared ≠ Ok tt st_shared
   ∧ bind (index 0 0) load st_shared = Ok 1 st_shared
   ∧ ∃ s', store (ElemPtr 1 0) 99 st_shared = Ok tt s'
           ∧ bind (index 0 0) load s' = Ok 99 s')
  ∧ ¬ (∀ (ops : list op) (s s' : @State Z) (this : nat) (i p j : N),
         run 0 ops init = Some s →
         index this i s = Ok (ElemPtr p j) s' →
         ∃ h, heap s' !! p = Some h ∧ refCount h = 1).
Proof.
  split.
  - split; [vm_compute; reflexivity|].
    split; [vm_compute; reflexivity|].
    split; [vm_compute; reflexivity|].
    split; [vm_compute; reflexivity|].
    split; [vm_compute; discriminate|].
    split; [vm_compute; reflexivity|].
    eexists. split; vm_compute; reflexivity.
  - intros Hclaim.
    destruct (Hclaim
                [OpSized true 0%nat 3%N; OpSet true 0%nat 0%N 1;
                 OpSet true 0%nat 1%N 2; OpSet true 0%nat 2%N 3;
                 OpCopy 1%nat 0%nat]
                st_shared st_shared 1%nat 0%N 1%N 0%N)
      as (h & Hh & Hrc).
    + vm_compute. reflexivity.
    + vm_compute. reflexivity.
    + vm_compute in Hh. injection Hh as <-. discriminate.
Qed.

(** C1 on [st_one]: handle 0 holds [1; 2; 3], handle 1 is its copy and
    writes 99 to element 0. *)
Lemma cow_isolation_witness :
  ∃ sB sW sD q hq,
    ctor_copy 1 0 st_one = Ok tt sB
    ∧ set 0 true 1 0 99 sB = Ok tt sW
    ∧ bind (index 0 0) load sW = Ok 1 sW
    ∧ bind (index 1 0) load sW = Ok 99 sW
    ∧ bind (index 0 1) load sW = Ok 2 sW
    ∧ bind (index 1 1) load sW = Ok 2 sW
    ∧ dtor 0 sW = Ok tt sD
    ∧ isValid 1 sD = Ok true sD
    ∧ objs sD !! 1%nat = Some q
    ∧ heap sD !! q = Some hq
    ∧ elements hq = [99; 2; 3].
Proof.
  apply (cow_isolation 0 st_one 0%nat 1%nat 1%N (block123 1) 1 2 99 [3]).
  - vm_compute. reflexivity.
  - vm_compute. reflexivity.
  - discriminate.
  - discriminate.
  - vm_compute. reflexivity.
  - reflexivity.
  - reflexivity.
  - vm_compute. split; [discriminate | reflexivity].
Defined.

(** ** Further properties of the handle operations *)

Section Further.

Context {Element : Type} (dflt : Element).
Implicit Types (s : @State Element) (h : @Header Element).

(** The operations of a run keep the invariant. *)
Lemma reached_Inv (ops : list op) s :
  Z.of_nat (length ops) < Atomic.modulus →
  run dflt ops init = Some s →
  Inv s.
Proof.
  intros Hlen Hrun.
  by destruct (run_good dflt ops init s Inv_init) as (_ & _ & HI).
Qed.

(** The same for a run of any length during which no block ever has as
    many handles as its counter has values. *)
Lemma reached_few (ops : list op) s :
  never_wraps dflt ops init = true →
  run dflt ops init = Some s →
  Inv s.
Proof. intros Hnw Hrun. by apply (run_Inv dflt ops init s Inv_init). Qed.

(** Heap, allocator and log are in order after every run. *)
Lemma reached_HInv (ops : list op) s :
  run dflt ops init = Some s →
  HInv (heap s) (brk s) (trace s).
Proof.
  intros Hrun.
  by destruct (run_HInv dflt ops init s (inv_heap _ Inv_init) Hrun).
Qed.

(** X1.  [ref] and [unref] undo each other for every value of the
    [unsigned int] counter, the wrap-around included: [unref] after [ref]
    gives the block back and reports it orphaned exactly when the counter
    was 0 before; [ref] after [unref] gives the block back as well. *)
Theorem ref_unref_roundtrip h :
  0 ≤ refCount h < Atomic.modulus →
  Header_unref (Header_ref h) = (refCount h =? 0, h)
  ∧ Header_ref (snd (Header_unref h)) = h.
Proof.
  intros Hrange. destruct h as [rc n els]. cbn in Hrange.
  unfold Header_unref, Header_ref, Atomic.preSub, Atomic.preAdd. cbn.
  rewrite Zminus_mod_idemp_l, Zplus_mod_idemp_l.
  replace (rc + 1 - 1) with rc by lia. replace (rc - 1 + 1) with rc by lia.
  by rewrite Z.mod_small by done.
Qed.

Lemma ctor_default_Ok s (this : nat) :
  objs s !! this = None →
  ctor_default this s = Ok tt (set_objs (insert this 0%N) s).
Proof. intros Hfresh. unfold ctor_default, fresh_object, bind. by rewrite Hfresh. Qed.

(** Copy construction is the adoption of the source's pointer followed by
    the guarded [ref]. *)
Lemma ctor_copy_adopt s (this source : nat) (Y : N) :
  objs s !! this = None → objs s !! source = Some Y →
  ctor_copy this source s
  = (if decide (Y ≠ 0%N) then ref Y else ret tt) (set_objs (insert this Y) s).
Proof.
  intros Hfresh Hsource. unfold ctor_copy, fresh_object, bind at 1.
  rewrite Hfresh.
  rewrite (bind_Ok _ _ _ _ _ (get_header_Ok _ _ _ Hsource)).
  unfold set_header, bind at 1, modify_state at 1.
  by erewrite bind_Ok;
    [|apply get_header_Ok; unfold set_objs; cbn [objs]; apply lookup_insert_eq].
Qed.

(** Assignment to a handle that holds the null pointer, likewise. *)
Lemma assign_adopt s (this source : nat) (Y : N) :
  objs s !! this = Some 0%N → objs s !! source = Some Y →
  assign this source s
  = (if decide (Y ≠ 0%N) then ref Y else ret tt) (set_objs (insert this Y) s).
Proof.
  intros Hthis Hsource. unfold assign.
  rewrite (bind_Ok _ _ _ _ _ (get_header_Ok _ _ _ Hthis)).
  rewrite (bind_Ok _ _ _ _ _ (get_header_Ok _ _ _ Hsource)).
  destruct (decide (Y = 0%N)) as [->|HY].
  - rewrite decide_False by (intros H; by apply H).
    rewrite decide_False by (intros H; by apply H).
    unfold ret. f_equal. destruct s as [hp m b t]. unfold set_objs.
    cbn in *. by rewrite insert_id.
  - rewrite decide_True by (intros H; by apply HY).
    rewrite (bind_Ok _ _ _ _ _ (release_null _)).
    rewrite (bind_Ok _ _ _ _ _ (get_header_Ok _ _ _ Hsource)).
    unfold set_header, bind at 1, modify_state at 1.
    by erewrite bind_Ok;
      [|apply get_header_Ok; unfold set_objs; cbn [objs]; apply lookup_insert_eq].
Qed.

(** X2.  Default construction followed by assignment is copy construction:
    on a new object [this], [RefCountedArray this; this = source;] leaves
    exactly the state and outcome of [RefCountedArray this(source);],
    whether [source] is valid, invalid, dangling or missing. *)
Theorem default_then_assign_is_copy s (this source : nat) :
  this ≠ source →
  objs s !! this = None →
  bind (ctor_default this) (λ _, assign this source) s
  = ctor_copy this source s.
Proof.
  intros Hne Hfresh.
  rewrite (bind_Ok _ _ _ _ _ (ctor_default_Ok s this Hfresh)).
  destruct (objs s !! source) as [Y|] eqn:Hsource.
  - rewrite (ctor_copy_adopt s this source Y) by done.
    rewrite (assign_adopt _ this source Y); last first.
    { unfold set_objs; cbn [objs]. by rewrite lookup_insert_ne. }
    { unfold set_objs; cbn [objs]. apply lookup_insert_eq. }
    f_equal. unfold set_objs; cbn [heap objs brk trace].
    by rewrite insert_insert_eq.
  - unfold ctor_copy, fresh_object, bind at 1. rewrite Hfresh.
    rewrite (bind_Undefined _ _ _ (get_header_None _ _ Hsource)).
    unfold assign.
    erewrite bind_Ok;
      [|apply get_header_Ok; unfold set_objs; cbn [objs]; apply lookup_insert_eq].
    rewrite bind_Undefined; [done|].
    apply get_header_None. unfold set_objs; cbn [objs].
    by rewrite lookup_insert_ne.
Qed.

(** X3.  A copy that is destroyed again leaves no trace in heap or
    handles: after [{ RefCountedArray copy(source); }] on a valid [source]
    whose block has a counter of at least 1, heap, handle objects and
    allocator are exactly as before; the block was neither destroyed nor
    reallocated, and the log gained one [ref] and one [unref]. *)
Theorem copy_then_dtor_restores s (new source : nat) (Y : N) h :
  objs s !! new = None →
  objs s !! source = Some Y →
  Y ≠ 0%N →
  heap s !! Y = Some h →
  1 ≤ refCount h < Atomic.modulus →
  ∃ s1 s2,
    ctor_copy new source s = Ok tt s1
    ∧ dtor new s1 = Ok tt s2
    ∧ heap s2 = heap s
    ∧ objs s2 = objs s
    ∧ brk s2 = brk s
    ∧ trace s2 = trace s ++ [EvPreAdd Y (Atomic.preAdd (refCount h) 1);
                             EvPreSub Y (refCount h)].
Proof.
  intros Hnew Hsource HY Hh Hrange.
  assert (Hback : Header_unref (Header_ref h) = (refCount h =? 0, h)).
  { destruct h as [rc n els]. cbn in Hrange.
    unfold Header_unref, Header_ref, Atomic.preSub, Atomic.preAdd. cbn.
    rewrite Zminus_mod_idemp_l. replace (rc + 1 - 1) with rc by lia.
    by rewrite Z.mod_small by lia. }
  assert (Hnz : (refCount h =? 0) = false) by (apply Z.eqb_neq; lia).
  eexists _, _. split; [by apply ctor_copy_Ok|].
  split.
  { eapply dtor_Ok; [|done|]; cbn; apply lookup_insert_eq. }
  unfold released. rewrite Hback. cbn [fst snd]. rewrite Hnz.
  unfold set_objs, set_heap, log; cbn [heap objs brk trace].
  repeat split.
  - rewrite insert_insert_eq. by apply insert_id.
  - rewrite delete_insert_eq. by apply delete_id.
  - by rewrite <- app_assoc.
Qed.

(** X4.  A copy shares the storage of its source.  After copy construction
    from a valid handle nothing has been allocated and no element has been
    copied or changed: [getArray() const] of the copy and of the source
    return the very same address, both report the same size, every index
    reads the same through both, and the only change in the heap is the
    counter of the shared block. *)
Theorem copy_shares_storage s (new source : nat) (Y : N) h :
  objs s !! new = None →
  objs s !! source = Some Y →
  Y ≠ 0%N →
  heap s !! Y = Some h →
  ∃ s',
    ctor_copy new source s = Ok tt s'
    ∧ brk s' = brk s
    ∧ getArray_const new s' = Ok (ElemPtr Y 0) s'
    ∧ getArray_const source s' = Ok (ElemPtr Y 0) s'
    ∧ getSize new s' = Ok (size h) s'
    ∧ getSize source s' = Ok (size h) s'
    ∧ (∀ i, bind (index_const new i) load s'
            = bind (index_const source i) load s')
    ∧ heap s' = <[Y := {| refCount := Atomic.preAdd (refCount h) 1;
                          size := size h; elements := elements h |}]> (heap s).
Proof.
  intros Hnew Hsource HY Hh.
  assert (Hne : new ≠ source) by (intros ->; congruence).
  eexists. split; [by apply ctor_copy_Ok|].
  set (s' := log _ _).
  assert (Hn : objs s' !! new = Some Y) by apply lookup_insert_eq.
  assert (Hs : objs s' !! source = Some Y)
    by (cbn; by rewrite lookup_insert_ne).
  assert (Hh' : heap s' !! Y = Some (Header_ref h)) by apply lookup_insert_eq.
  split; [done|].
  split; [by eapply pointer_Ok|]. split; [by eapply pointer_Ok|].
  assert (Hsize : ∀ o, objs s' !! o = Some Y → getSize o s' = Ok (size h) s').
  { intros o Ho. unfold getSize.
    rewrite (bind_Ok _ _ _ _ _ (get_header_Ok _ _ _ Ho)).
    by rewrite (bind_Ok _ _ _ _ _ (deref_Ok _ _ _ HY Hh')). }
  split; [by apply Hsize|]. split; [by apply Hsize|].
  split; [|done].
  intros i. unfold index_const.
  rewrite (bind_Ok _ _ _ _ _ (pointer_Ok new Y _ s' i Hn HY Hh')).
  by rewrite (bind_Ok _ _ _ _ _ (pointer_Ok source Y _ s' i Hs HY Hh')).
Qed.

(** *** In the states a program reaches *)

(** X5.  No leak and no dangling handle: in every state a program reaches
    (by fewer operations than the counter has values), a block is live if
    and only if the [header] of some handle object points to it.  So once
    every handle has been destroyed, the heap is empty. *)
Theorem live_iff_referenced (ops : list op) s :
  Z.of_nat (length ops) < Atomic.modulus →
  run dflt ops init = Some s →
  (∀ p, is_Some (heap s !! p) ↔ p ≠ 0%N ∧ ∃ o, objs s !! o = Some p)
  ∧ (objs s = ∅ → heap s = ∅).
Proof.
  intros Hlen Hrun. destruct (reached_Inv ops s Hlen Hrun) as [HH HC].
  assert (Hiff : ∀ p, is_Some (heap s !! p)
                      ↔ p ≠ 0%N ∧ ∃ o, objs s !! o = Some p).
  { intros p. split.
    - intros [h Hp]. split; [by destruct (h_below _ _ _ HH p h Hp)|].
      destruct (c_count _ _ HC p h Hp) as [_ Hpos].
      by apply sharers_of_exists.
    - intros [Hp [o Ho]]. by eapply c_live. }
  split; [done|].
  intros Hempty. apply map_eq. intros p. rewrite lookup_empty.
  destruct (heap s !! p) as [h|] eqn:Hp; [|done].
  destruct (proj1 (Hiff p)) as [_ [o Ho]]; [by rewrite Hp|].
  rewrite Hempty, lookup_empty in Ho. done.
Qed.

(** X6.  In every state reached by a run during which no block ever had
    2^32 or more handles at once ([never_wraps]), copy construction from an
    existing handle, assignment between existing handles and destruction
    of an existing handle are defined: they never dereference a null or a
    freed block, whether the handles are valid or not.  Afterwards the copy
    (or the target) holds the pointer of the source, assigning once more
    changes nothing, and a destroyed handle no longer exists. *)
Theorem sharing_operations_defined (ops : list op) s :
  never_wraps dflt ops init = true →
  run dflt ops init = Some s →
  (∀ this source Y,
     objs s !! this = None → objs s !! source = Some Y →
     ∃ s', ctor_copy this source s = Ok tt s'
           ∧ objs s' !! this = Some Y ∧ objs s' !! source = Some Y)
  ∧ (∀ this source X Y,
       objs s !! this = Some X → objs s !! source = Some Y →
       ∃ s', assign this source s = Ok tt s'
             ∧ objs s' !! this = Some Y ∧ objs s' !! source = Some Y
             ∧ assign this source s' = Ok tt s')
  ∧ (∀ this X,
       objs s !! this = Some X →
       ∃ s', dtor this s = Ok tt s' ∧ objs s' !! this = None).
Proof.
  intros Hnw Hrun. destruct (reached_few ops s Hnw Hrun) as [HH HC].
  assert (Hacq : ∀ s1 this Y,
            (Y ≠ 0%N → is_Some (heap s1 !! Y)) →
            ∃ s', (if decide (Y ≠ 0%N) then ref Y else ret tt)
                    (set_objs (insert this Y) s1) = Ok tt s'
                  ∧ objs s' = <[this := Y]> (objs s1)).
  { intros s1 this Y Hlive. case_decide as HY; [|by eexists].
    destruct (Hlive HY) as [hY HhY].
    eexists. split; [by apply (ref_Ok Y hY)|done]. }
  assert (Hrel : ∀ X o, objs s !! o = Some X →
            ∃ s1, release X s = Ok tt s1 ∧ objs s1 = objs s
                  ∧ ∀ q, q ≠ X → heap s1 !! q = heap s !! q).
  { intros X o Ho. destruct (decide (X = 0%N)) as [->|HX].
    - exists s. by rewrite release_null.
    - destruct (c_live _ _ HC o X Ho HX) as [hX HhX].
      exists (released X hX s). split; [by apply release_Ok|].
      split; [apply released_objs|]. intros q Hq. by apply released_heap_ne. }
  split; [|split].
  - intros this source Y Hthis Hsource.
    rewrite (ctor_copy_adopt s this source Y) by done.
    destruct (Hacq s this Y) as (s' & Hs' & Hobjs); [by eapply c_live|].
    exists s'. split; [done|]. rewrite Hobjs.
    split; [apply lookup_insert_eq|].
    rewrite lookup_insert_ne; [done|]. intros ->. congruence.
  - intros this source X Y Hthis Hsource.
    destruct (decide (X = Y)) as [->|HXY].
    { exists s.
      assert (Hnop : assign this source s = Ok tt s).
      { unfold assign.
        rewrite (bind_Ok _ _ _ _ _ (get_header_Ok _ _ _ Hthis)).
        rewrite (bind_Ok _ _ _ _ _ (get_header_Ok _ _ _ Hsource)).
        by rewrite decide_False by (intros H; by apply H). }
      done. }
    destruct (Hrel X this Hthis) as (s1 & Hs1 & Hobjs1 & Hheap1).
    destruct (Hacq s1 this Y) as (s' & Hs' & Hobjs').
    { intros HY. rewrite Hheap1 by done. by eapply c_live. }
    assert (Hne : this ≠ source) by (intros ->; congruence).
    assert (Ht' : objs s' !! this = Some Y)
      by (rewrite Hobjs'; apply lookup_insert_eq).
    assert (Hs'' : objs s' !! source = Some Y)
      by (rewrite Hobjs', lookup_insert_ne, Hobjs1; done).
    exists s'. split; [|split; [done|split; [done|]]].
    + unfold assign.
      rewrite (bind_Ok _ _ _ _ _ (get_header_Ok _ _ _ Hthis)).
      rewrite (bind_Ok _ _ _ _ _ (get_header_Ok _ _ _ Hsource)).
      rewrite decide_True by done.
      rewrite (bind_Ok _ _ _ _ _ Hs1).
      erewrite bind_Ok; [|apply get_header_Ok; rewrite Hobjs1; exact Hsource].
      unfold set_header, bind at 1, modify_state at 1.
      by erewrite bind_Ok;
        [|apply get_header_Ok; unfold set_objs; cbn [objs]; apply lookup_insert_eq].
    + unfold assign.
      rewrite (bind_Ok _ _ _ _ _ (get_header_Ok _ _ _ Ht')).
      rewrite (bind_Ok _ _ _ _ _ (get_header_Ok _ _ _ Hs'')).
      by rewrite decide_False by (intros H; by apply H).
  - intros this X Hthis.
    destruct (Hrel X this Hthis) as (s1 & Hs1 & Hobjs1 & _).
    eexists. split.
    + unfold dtor.
      rewrite (bind_Ok _ _ _ _ _ (get_header_Ok _ _ _ Hthis)).
      by rewrite (bind_Ok _ _ _ _ _ Hs1).
    + cbn. apply lookup_delete_eq.
Qed.

(** X7.  Destruction frees the block exactly when the last handle goes.
    In a state reached by a run during which no block ever had 2^32 or
    more handles at once ([never_wraps]), destroying a valid handle on
    block [X] is defined; [X] is gone afterwards if and only if no other
    handle referenced it, and otherwise [X] stays with its elements and
    size, and its counter one lower.  No other block is touched. *)
Theorem dtor_frees_iff_last (ops : list op) s (this : nat) (X : N) :
  never_wraps dflt ops init = true →
  run dflt ops init = Some s →
  objs s !! this = Some X →
  X ≠ 0%N →
  ∃ h s',
    heap s !! X = Some h
    ∧ dtor this s = Ok tt s'
    ∧ (heap s' !! X = None ↔ ∀ o, o ≠ this → objs s !! o ≠ Some X)
    ∧ (∀ o, o ≠ this → objs s !! o = Some X →
            heap s' !! X = Some {| refCount := refCount h - 1;
                                   size := size h; elements := elements h |})
    ∧ (∀ q, q ≠ X → heap s' !! q = heap s !! q).
Proof.
  intros Hnw Hrun Hthis HX.
  destruct (reached_few ops s Hnw Hrun) as [HH HC].
  destruct (c_live _ _ HC this X Hthis HX) as [h Hh].
  pose proof (CInv_range _ _ _ _ HC Hh) as Hrange.
  destruct (c_count _ _ HC X h Hh) as [Hrc _].
  rewrite (sharers_of_delete (objs s) this X X Hthis) in Hrc.
  rewrite decide_True in Hrc by done.
  assert (Hothers : sharers_of (delete this (objs s)) X = 0%nat
                    ↔ ∀ o, o ≠ this → objs s !! o ≠ Some X).
  { rewrite sharers_of_zero. split.
    - intros Hno o Ho Hoo. apply (Hno o). by rewrite lookup_delete_ne.
    - intros Hno o [Ho Hoo]%lookup_delete_Some. by apply (Hno o). }
  exists h, (set_objs (delete this) (released X h s)).
  split; [done|]. split; [by apply dtor_Ok|].
  unfold set_objs; cbn [heap]. rewrite released_heap, preSub_1 by lia.
  split; [|split].
  - rewrite <- Hothers.
    destruct (refCount h - 1 =? 0) eqn:Hz.
    + apply Z.eqb_eq in Hz. rewrite lookup_delete_eq. split; [lia|done].
    + apply Z.eqb_neq in Hz. rewrite lookup_insert_eq. split; [done|lia].
  - intros o Ho Hoo.
    assert (Hpos : sharers_of (delete this (objs s)) X ≠ 0%nat).
    { intros Hz. apply (proj1 Hothers Hz o Ho Hoo). }
    rewrite (proj2 (Z.eqb_neq _ _)) by lia.
    rewrite lookup_insert_eq. cbn. by rewrite preSub_1 by lia.
  - intros q Hq.
    destruct (_ =? 0); [by rewrite lookup_delete_ne | by rewrite lookup_insert_ne].
Qed.

(** *** What the other handles see *)

(** The handle object an operation is invoked on. *)
Definition target (o : @op Element) : nat :=
  match o with
  | OpDefault this => this
  | OpSized _ this _ => this
  | OpCopy this _ => this
  | OpAssign this _ => this
  | OpModify _ this => this
  | OpSet _ this _ _ => this
  | OpDtor this => this
  end.

(** The block at [p] is live in [hp'] with the elements and size it has in
    [hp]. *)
Definition keeps (hp hp' : gmap N (@Header Element)) (p : N) : Prop :=
  ∀ h, hp !! p = Some h →
       ∃ h', hp' !! p = Some h' ∧ elements h' = elements h ∧ size h' = size h.

Lemma keeps_refl hp p : keeps hp hp p.
Proof. intros h Hp. by exists h. Qed.

Lemma keeps_trans hp1 hp2 hp3 p :
  keeps hp1 hp2 p → keeps hp2 hp3 p → keeps hp1 hp3 p.
Proof.
  intros H12 H23 h Hp. destruct (H12 h Hp) as (h2 & Hp2 & <- & <-).
  by apply H23.
Qed.

Lemma keeps_insert hp q hq h' p :
  hp !! q = Some hq → elements h' = elements hq → size h' = size hq →
  keeps hp (<[q := h']> hp) p.
Proof.
  intros Hq Hel Hsz h Hp. rewrite lookup_insert. case_decide; [subst q|eauto].
  exists h'. split; [done|]. by simplify_eq.
Qed.

Lemma keeps_insert_ne hp q h' p :
  q ≠ p → keeps hp (<[q := h']> hp) p.
Proof. intros Hq h Hp. rewrite lookup_insert_ne by done. eauto. Qed.

Lemma keeps_released s X hX p :
  heap s !! X = Some hX →
  (p = X → Atomic.preSub (refCount hX) 1 ≠ 0) →
  keeps (heap s) (heap (released X hX s)) p.
Proof.
  intros HhX Hp. destruct (decide (p = X)) as [->|Hne].
  - rewrite released_heap. rewrite (proj2 (Z.eqb_neq _ _)) by auto.
    by eapply keeps_insert.
  - intros h Hh. rewrite released_heap_ne by done. eauto.
Qed.

(** A release by [this] leaves the blocks of the other handles. *)
Lemma release_keeps s (this other : nat) (X : N) s1 :
  CInv (heap s) (objs s) →
  objs s !! this = Some X → other ≠ this →
  release X s = Ok tt s1 →
  objs s1 = objs s
  ∧ ∀ p, objs s !! other = Some p → keeps (heap s) (heap s1) p.
Proof.
  intros HC Hthis Hne Hrel.
  destruct (release_cases X s) as [Hu|[[-> Hr]|(hX & HX & HhX & Hr)]].
  - congruence.
  - rewrite Hr in Hrel. injection Hrel as <-.
    split; [done|]. intros p _. apply keeps_refl.
  - rewrite Hr in Hrel. injection Hrel as <-.
    split; [apply released_objs|]. intros p Hother.
    apply keeps_released; [done|].
    intros ->. pose proof (CInv_range _ _ _ _ HC HhX) as Hrange.
    destruct (c_count _ _ HC X hX HhX) as [Hrc _].
    pose proof (sharers_of_two (objs s) this other X (not_eq_sym Hne)
                  Hthis Hother).
    rewrite preSub_1 by lia. lia.
Qed.

(** The guarded [ref] changes a counter only. *)
Lemma acquire_keeps (Y : N) s2 s' p :
  (if decide (Y ≠ 0%N) then ref Y else ret tt) s2 = Ok tt s' →
  objs s' = objs s2 ∧ keeps (heap s2) (heap s') p.
Proof.
  case_decide as HY.
  - destruct (heap s2 !! Y) as [hY|] eqn:HhY.
    + rewrite (ref_Ok Y hY) by done. intros [= <-].
      split; [done|]. cbn. by eapply keeps_insert.
    + unfold ref. rewrite bind_Undefined; [done|]. by apply deref_None.
  - intros [= <-]. split; [done|apply keeps_refl].
Qed.

(** Assignment that changes the block is the release of the old block, the
    adoption of the source's pointer and the guarded [ref]. *)
Lemma assign_release_adopt s (this source : nat) (X Y : N) :
  objs s !! this = Some X → objs s !! source = Some Y → X ≠ Y →
  assign this source s
  = bind (release X)
      (λ _, λ s1, (if decide (Y ≠ 0%N) then ref Y else ret tt)
                    (set_objs (insert this Y) s1)) s.
Proof.
  intros Hthis Hsource HXY. unfold assign.
  rewrite (bind_Ok _ _ _ _ _ (get_header_Ok _ _ _ Hthis)).
  rewrite (bind_Ok _ _ _ _ _ (get_header_Ok _ _ _ Hsource)).
  rewrite decide_True by done.
  destruct (release_cases X s) as [Hu|Hr].
  { by rewrite !bind_Undefined. }
  assert (∃ s1, release X s = Ok tt s1 ∧ objs s1 = objs s) as (s1 & Hs1 & Hobjs).
  { destruct Hr as [[-> Hr]|(hX & ? & ? & Hr)]; eexists; (split; [exact Hr|]);
      [done|apply released_objs]. }
  rewrite !(bind_Ok _ _ _ _ _ Hs1).
  erewrite bind_Ok; [|apply get_header_Ok; rewrite Hobjs; exact Hsource].
  unfold set_header, bind at 1, modify_state at 1.
  by erewrite bind_Ok;
    [|apply get_header_Ok; unfold set_objs; cbn [objs]; apply lookup_insert_eq].
Qed.

(** [modify] through [this] leaves the blocks of the other handles, and
    the block [this] holds afterwards is none of theirs. *)
Lemma modify_keeps ok s (this other : nat) s1 :
  Inv s → other ≠ this →
  modify dflt ok this s = Ok tt s1 ∨ modify dflt ok this s = BadAlloc s1 →
  objs s1 !! other = objs s !! other
  ∧ ∀ p, objs s !! other = Some p →
         keeps (heap s) (heap s1) p
         ∧ (modify dflt ok this s = Ok tt s1 → is_Some (heap s !! p) →
            objs s1 !! this ≠ Some p).
Proof.
  intros [HH HC] Hne Hres.
  destruct (objs s !! this) as [X|] eqn:Hthis; last first.
  { unfold modify in Hres.
    rewrite (bind_Undefined _ _ _ (get_header_None _ _ Hthis)) in Hres.
    by destruct Hres. }
  destruct (decide (X = 0%N)) as [->|HX].
  { unfold modify in Hres.
    rewrite (bind_Ok _ _ _ _ _ (get_header_Ok _ _ _ Hthis)) in Hres.
    rewrite bind_Undefined in Hres; [by destruct Hres|].
    unfold deref. by rewrite decide_True. }
  destruct (heap s !! X) as [hX|] eqn:HhX; last first.
  { unfold modify in Hres.
    rewrite (bind_Ok _ _ _ _ _ (get_header_Ok _ _ _ Hthis)) in Hres.
    rewrite bind_Undefined in Hres; [by destruct Hres|]. by apply deref_None. }
  pose proof (CInv_range _ _ _ _ HC HhX) as Hrange.
  pose proof (HInv_free _ _ _ HH) as Hfree.
  destruct (decide (refCount hX = 1)) as [Hrc|Hrc].
  - rewrite (modify_exclusive dflt ok this X hX) in Hres by done.
    assert (s1 = log (EvGet X 1) s) as -> by (destruct Hres; congruence).
    split; [done|]. intros p Hother. split; [apply keeps_refl|].
    intros _ _. cbn. rewrite Hthis. intros [= ->].
    destruct (c_count _ _ HC p hX HhX) as [Hcnt _].
    pose proof (sharers_of_two (objs s) this other p (not_eq_sym Hne)
                  Hthis Hother). lia.
  - destruct ok.
    + rewrite (modify_shared_Ok dflt this X hX) in Hres; try done;
        [|intros ->; congruence].
      assert (s1 = unshared dflt this X hX s) as ->
        by (destruct Hres; congruence).
      rewrite unshared_objs. split; [by rewrite lookup_insert_ne|].
      intros p Hother. split.
      * unfold unshared. eapply keeps_trans; last first.
        { apply keeps_released; [cbn; rewrite lookup_insert_ne; [done|]|].
          - intros <-. congruence.
          - intros _. rewrite preSub_1 by lia. lia. }
        cbn. intros h Hp. rewrite lookup_insert_ne; [eauto|].
        intros <-. congruence.
      * intros _ [h Hp]. rewrite lookup_insert_eq. intros [= <-]. congruence.
    + rewrite (modify_shared_fail dflt this X hX) in Hres by done.
      assert (s1 = log (EvGet X (refCount hX)) s) as ->
        by (destruct Hres; congruence).
      split; [done|]. intros p Hother. split; [apply keeps_refl|].
      intros Hok. rewrite (modify_shared_fail dflt this X hX) in Hok by done.
      discriminate.
Qed.

(** X8.  Value semantics: an operation on one handle never changes what
    another handle sees.  In a state reached by a run during which no block
    ever had 2^32 or more handles at once ([never_wraps]), whatever
    operation runs on the handle object [target o] (construction,
    assignment, [modify], [set], destruction; to completion or up to a
    failed allocation), every other handle object keeps its pointer, and
    the block it points to is still live with the same elements and the
    same size. *)
Theorem others_unaffected (ops : list op) s (o : op) (other : nat) s' :
  never_wraps dflt ops init = true →
  run dflt ops init = Some s →
  other ≠ target o →
  exec dflt o s = Ok tt s' ∨ exec dflt o s = BadAlloc s' →
  objs s' !! other = objs s !! other
  ∧ ∀ p h, objs s !! other = Some p → heap s !! p = Some h →
           ∃ h', heap s' !! p = Some h'
                 ∧ elements h' = elements h ∧ size h' = size h.
Proof.
  intros Hnw Hrun Hne Hres.
  pose proof (reached_few ops s Hnw Hrun) as HI. pose proof HI as [HH HC].
  enough (objs s' !! other = objs s !! other
          ∧ ∀ p, objs s !! other = Some p → keeps (heap s) (heap s') p)
    as [Hobjs Hkeep] by (split; [done|]; intros p h Hp; by apply Hkeep).
  assert (Hacq : ∀ Y s2,
            (if decide (Y ≠ 0%N) then ref Y else ret tt) s2 = Ok tt s'
            ∨ (if decide (Y ≠ 0%N) then ref Y else ret tt) s2 = BadAlloc s' →
            objs s' = objs s2 ∧ ∀ p, keeps (heap s2) (heap s') p).
  { intros Y s2 [Hok|Hbad].
    - split; [by destruct (acquire_keeps Y s2 s' 0%N Hok)|].
      intros p. by destruct (acquire_keeps Y s2 s' p Hok).
    - destruct (acquire_defined Y s2) as [Hu|[s'' Hs'']]; congruence. }
  remember (exec dflt o s) as r eqn:Hr.
  assert (Hpin : ∀ s1, r = Ok tt s1 ∨ r = BadAlloc s1 → s' = s1).
  { intros s1 [-> | ->]; destruct Hres as [Hx|Hx]; by inversion Hx. }
  assert (Hdef : r ≠ Undefined) by (destruct Hres as [-> | ->]; done).
  destruct o as [this|ok this n|this source|this source|ok this|ok this i x|this];
    cbn [exec target] in *.
  - (* default construction *)
    unfold ctor_default, fresh_object, bind in Hr.
    destruct (objs s !! this) eqn:Hthis; [done|].
    rewrite (Hpin (set_objs (insert this 0%N) s)) by (by left).
    cbn. split; [by rewrite lookup_insert_ne|]. intros p _. apply keeps_refl.
  - (* sized construction *)
    unfold ctor_sized, fresh_object, bind, create in Hr.
    destruct (objs s !! this) eqn:Hthis; [done|].
    destruct ok.
    + rewrite (Hpin _ (or_introl Hr)). cbn.
      split; [by rewrite lookup_insert_ne|]. intros p _ h Hp.
      rewrite lookup_insert_ne; [eauto|]. intros <-.
      pose proof (HInv_free _ _ _ HH). congruence.
    + rewrite (Hpin _ (or_intror Hr)).
      split; [done|]. intros p _. apply keeps_refl.
  - (* copy construction *)
    destruct (objs s !! this) eqn:Hthis.
    { unfold ctor_copy, fresh_object, bind in Hr. by rewrite Hthis in Hr. }
    destruct (objs s !! source) as [Y|] eqn:Hsource; last first.
    { unfold ctor_copy, fresh_object, bind at 1 in Hr. rewrite Hthis in Hr.
      by rewrite (bind_Undefined _ _ _ (get_header_None _ _ Hsource)) in Hr. }
    rewrite (ctor_copy_adopt s this source Y) in Hr by done. rewrite Hr in Hres.
    destruct (Hacq _ _ Hres) as [-> Hk].
    cbn. split; [by rewrite lookup_insert_ne|]. intros p _. apply Hk.
  - (* assignment *)
    destruct (objs s !! this) as [X|] eqn:Hthis; last first.
    { unfold assign in Hr.
      by rewrite (bind_Undefined _ _ _ (get_header_None _ _ Hthis)) in Hr. }
    destruct (objs s !! source) as [Y|] eqn:Hsource; last first.
    { unfold assign in Hr.
      rewrite (bind_Ok _ _ _ _ _ (get_header_Ok _ _ _ Hthis)) in Hr.
      by rewrite (bind_Undefined _ _ _ (get_header_None _ _ Hsource)) in Hr. }
    destruct (decide (X = Y)) as [->|HXY].
    { unfold assign in Hr.
      rewrite (bind_Ok _ _ _ _ _ (get_header_Ok _ _ _ Hthis)) in Hr.
      rewrite (bind_Ok _ _ _ _ _ (get_header_Ok _ _ _ Hsource)) in Hr.
      rewrite decide_False in Hr by (intros H; by apply H).
      rewrite (Hpin s (or_introl Hr)).
      split; [done|]. intros p _. apply keeps_refl. }
    rewrite (assign_release_adopt s this source X Y) in Hr by done.
    destruct (release_cases X s) as [Hu|Hrel].
    { by rewrite (bind_Undefined _ _ _ Hu) in Hr. }
    assert (∃ s1, release X s = Ok tt s1) as [s1 Hs1]
      by (destruct Hrel as [[_ Hrel]|(? & _ & _ & Hrel)]; by eexists).
    rewrite (bind_Ok _ _ _ _ _ Hs1) in Hr. rewrite Hr in Hres.
    destruct (release_keeps s this other X s1 HC Hthis Hne Hs1) as [Ho1 Hk1].
    destruct (Hacq _ _ Hres) as [-> Hk].
    cbn. rewrite Ho1. split; [by rewrite lookup_insert_ne|].
    intros p Hp. eapply keeps_trans; [by apply Hk1|]. apply Hk.
  - (* modify *)
    rewrite Hr in Hres.
    destruct (modify_keeps ok s this other s' HI Hne Hres) as [Ho Hk].
    split; [done|]. intros p Hp. by destruct (Hk p Hp).
  - (* set *)
    unfold set, bind at 1 in Hr.
    destruct (modify dflt ok this s) as [[] s1|s1|] eqn:Hmod; [| |done].
    + destruct (modify_keeps ok s this other s1 HI Hne (or_introl Hmod))
        as [Ho Hk].
      destruct (objs s1 !! this) as [q|] eqn:Hq; last first.
      { by rewrite (bind_Undefined _ _ _ (get_header_None _ _ Hq)) in Hr. }
      rewrite (bind_Ok _ _ _ _ _ (get_header_Ok _ _ _ Hq)) in Hr.
      destruct (decide (q = 0%N)) as [->|Hq0].
      { rewrite bind_Undefined in Hr; [done|]. unfold deref. by rewrite decide_True. }
      destruct (heap s1 !! q) as [hq|] eqn:Hhq; last first.
      { rewrite bind_Undefined in Hr; [done|]. by apply deref_None. }
      rewrite (bind_Ok _ _ _ _ _ (deref_Ok _ _ _ Hq0 Hhq)) in Hr.
      destruct (decide (N.to_nat i < length (elements hq))%nat) as [Hi|Hi];
        last first.
      { unfold store in Hr.
        rewrite (bind_Ok _ _ _ _ _ (deref_Ok _ _ _ Hq0 Hhq)) in Hr.
        by rewrite decide_False in Hr by done. }
      rewrite (store_Ok q i x hq) in Hr by done.
      rewrite (Hpin _ (or_introl Hr)).
      split; [done|]. intros p Hp. destruct (Hk p Hp) as [Hkeep Hnot].
      intros h Hh. destruct (Hkeep h Hh) as (h1 & Hh1 & Hel & Hsz).
      exists h1. split; [|done]. cbn. rewrite lookup_insert_ne; [done|].
      intros ->. by apply (Hnot Hmod (mk_is_Some _ _ Hh)).
    + rewrite (Hpin _ (or_intror Hr)).
      destruct (modify_keeps ok s this other s1 HI Hne (or_intror Hmod))
        as [Ho Hk].
      split; [done|]. intros p Hp. by destruct (Hk p Hp).
  - (* destruction *)
    destruct (objs s !! this) as [X|] eqn:Hthis; last first.
    { unfold dtor in Hr.
      by rewrite (bind_Undefined _ _ _ (get_header_None _ _ Hthis)) in Hr. }
    unfold dtor in Hr.
    rewrite (bind_Ok _ _ _ _ _ (get_header_Ok _ _ _ Hthis)) in Hr.
    destruct (release_cases X s) as [Hu|Hrel].
    { by rewrite (bind_Undefined _ _ _ Hu) in Hr. }
    assert (∃ s1, release X s = Ok tt s1) as [s1 Hs1]
      by (destruct Hrel as [[_ Hrel]|(? & _ & _ & Hrel)]; by eexists).
    rewrite (bind_Ok _ _ _ _ _ Hs1) in Hr.
    destruct (release_keeps s this other X s1 HC Hthis Hne Hs1) as [Ho1 Hk1].
    rewrite (Hpin _ (or_introl Hr)).
    cbn. rewrite Ho1. split; [by rewrite lookup_delete_ne|]. done.
Qed.

(** *** Validity, bounds and writes *)

(** X9.  [isValid()] is exactly the precondition of the other methods.  In
    a state reached by a run during which no block ever had 2^32 or more
    handles at once ([never_wraps]), for a valid handle [getSize] and both
    [getArray] are defined, [getSize] is the number of elements of the
    block and the array pointer is the block's; for an invalid handle
    [isValid] is false, and [getSize], the read of an element, [modify]
    and [set] all read or write through the null pointer. *)
Theorem isValid_is_the_precondition (ops : list op) s (this : nat) (p : N) :
  never_wraps dflt ops init = true →
  run dflt ops init = Some s →
  objs s !! this = Some p →
  isValid this s = Ok (bool_decide (p ≠ 0%N)) s
  ∧ (p ≠ 0%N →
     ∃ h, heap s !! p = Some h
          ∧ getSize this s = Ok (size h) s
          ∧ N.of_nat (length (elements h)) = size h
          ∧ getArray_const this s = Ok (ElemPtr p 0) s
          ∧ getArray this s = Ok (ElemPtr p 0) s)
  ∧ (p = 0%N →
     getSize this s = Undefined
     ∧ (∀ i, bind (index_const this i) load s = Undefined)
     ∧ (∀ ok, modify dflt ok this s = Undefined)
     ∧ (∀ ok i x, set dflt ok this i x s = Undefined)).
Proof.
  intros Hnw Hrun Hthis.
  destruct (reached_few ops s Hnw Hrun) as [HH HC].
  split; [|split].
  - unfold isValid. by rewrite (bind_Ok _ _ _ _ _ (get_header_Ok _ _ _ Hthis)).
  - intros Hp. destruct (c_live _ _ HC this p Hthis Hp) as [h Hh].
    exists h. split; [done|]. split; [|split; [|split]].
    + unfold getSize.
      rewrite (bind_Ok _ _ _ _ _ (get_header_Ok _ _ _ Hthis)).
      by rewrite (bind_Ok _ _ _ _ _ (deref_Ok _ _ _ Hp Hh)).
    + rewrite (h_shape _ _ _ HH p h Hh). lia.
    + by eapply pointer_Ok.
    + by eapply pointer_Ok.
  - intros ->.
    assert (Hderef : ∀ s0, deref (Element := Element) 0%N s0 = Undefined).
    { intros s0. unfold deref. by rewrite decide_True. }
    assert (Hmod : ∀ ok, modify dflt ok this s = Undefined).
    { intros ok. unfold modify.
      rewrite (bind_Ok _ _ _ _ _ (get_header_Ok _ _ _ Hthis)).
      by rewrite bind_Undefined. }
    split; [|split; [|split]].
    + unfold getSize.
      rewrite (bind_Ok _ _ _ _ _ (get_header_Ok _ _ _ Hthis)).
      by rewrite bind_Undefined.
    + intros i. rewrite bind_Undefined; [done|]. unfold index_const.
      rewrite (bind_Ok _ _ _ _ _ (get_header_Ok _ _ _ Hthis)).
      by rewrite bind_Undefined.
    + done.
    + intros ok i x. unfold set. by rewrite bind_Undefined.
Qed.

(** The state a write through a valid handle leaves. *)
Lemma set_result s (this : nat) (p : N) h (i : N) (x : Element) :
  HInv (heap s) (brk s) (trace s) →
  objs s !! this = Some p → p ≠ 0%N → heap s !! p = Some h →
  (i < size h)%N →
  ∃ s' q hq,
    set dflt true this i x s = Ok tt s'
    ∧ objs s' !! this = Some q ∧ q ≠ 0%N
    ∧ heap s' !! q = Some hq
    ∧ refCount hq = 1
    ∧ size hq = size h
    ∧ elements hq = <[N.to_nat i := x]> (elements h).
Proof.
  intros HH Hthis Hp Hh Hi.
  pose proof (h_shape _ _ _ HH p h Hh) as Hlen.
  assert (Hnat : (N.to_nat i < length (elements h))%nat) by lia.
  destruct (decide (refCount h = 1)) as [Hrc|Hrc].
  - eexists _, p, _. split; [by apply set_exclusive|].
    split; [done|]. split; [done|].
    split; [apply lookup_insert_eq|]. done.
  - assert (Hfresh : p ≠ Npos (brk s)).
    { pose proof (HInv_free _ _ _ HH). intros ->. congruence. }
    eexists _, (Npos (brk s)), _. split; [by apply set_shared_Ok|].
    split; [cbn; rewrite unshared_objs; apply lookup_insert_eq|].
    split; [done|]. split; [apply lookup_insert_eq|].
    split; [done|]. split; [done|].
    cbn [with_element elements]. by rewrite unshared_copy_elements.
Qed.


(** X11.  What [set] writes is what is read back.  In the state after any
    run of handle operations, of whatever length, after [set(i, x)] through
    a handle on a live block with [i] below its size (and the allocation,
    if one is needed, succeeding), reading index [i] through that handle
    gives [x], every other index reads as before, the size is unchanged,
    and the handle's block has reference count 1. *)
Theorem set_then_read (ops : list op) s (this : nat) (p : N) h (i : N) (x : Element) :
  run dflt ops init = Some s →
  objs s !! this = Some p →
  p ≠ 0%N →
  heap s !! p = Some h →
  (i < size h)%N →
  ∃ s', set dflt true this i x s = Ok tt s'
        ∧ bind (index_const this i) load s' = Ok x s'
        ∧ (∀ j y, j ≠ i → elements h !! N.to_nat j = Some y →
                  bind (index_const this j) load s' = Ok y s')
        ∧ getSize this s' = Ok (size h) s'
        ∧ ∃ q hq, objs s' !! this = Some q ∧ heap s' !! q = Some hq
                  ∧ refCount hq = 1.
Proof.
  intros Hrun Hthis Hp Hh Hi.
  pose proof (reached_HInv ops s Hrun) as HH.
  pose proof (h_shape _ _ _ HH p h Hh) as Hshape.
  destruct (set_result s this p h i x HH Hthis Hp Hh Hi)
    as (s' & q & hq & Hset & Hq & Hq0 & Hhq & Hrc & Hsz & Hel).
  exists s'. split; [done|].
  assert (Hread : ∀ j y, elements hq !! N.to_nat j = Some y →
                         bind (index_const this j) load s' = Ok y s').
  { intros j y Hj. unfold index_const.
    rewrite (bind_Ok _ _ _ _ _ (pointer_Ok this q hq s' j Hq Hq0 Hhq)).
    by eapply load_Ok. }
  split; [|split; [|split]].
  - apply Hread. rewrite Hel. apply list_lookup_insert_eq. lia.
  - intros j y Hji Hj. apply Hread. rewrite Hel.
    rewrite list_lookup_insert_ne; [done|]. lia.
  - unfold getSize.
    rewrite (bind_Ok _ _ _ _ _ (get_header_Ok _ _ _ Hq)).
    rewrite (bind_Ok _ _ _ _ _ (deref_Ok _ _ _ Hq0 Hhq)). by rewrite Hsz.
  - by exists q, hq.
Qed.

(** X12.  Only the first write after a share pays.  In the state after any
    run of handle operations, of whatever length, once [set] has returned
    through a handle on a live block, any further [set] through that handle
    (with an index below the size) writes in place: it is defined whatever
    the allocator would answer, allocates nothing, leaves the handle on the
    same block, and logs only the read of the counter. *)
Theorem second_set_in_place (ops : list op) s (this : nat) (p : N) h
    (i j : N) (x y : Element) (ok : bool) :
  run dflt ops init = Some s →
  objs s !! this = Some p →
  p ≠ 0%N →
  heap s !! p = Some h →
  (i < size h)%N →
  (j < size h)%N →
  ∃ s' s'' q,
    set dflt true this i x s = Ok tt s'
    ∧ set dflt ok this j y s' = Ok tt s''
    ∧ objs s' !! this = Some q
    ∧ objs s'' = objs s'
    ∧ brk s'' = brk s'
    ∧ trace s'' = trace s' ++ [EvGet q 1]
    ∧ bind (index_const this j) load s'' = Ok y s''.
Proof.
  intros Hrun Hthis Hp Hh Hi Hj.
  pose proof (reached_HInv ops s Hrun) as HH.
  pose proof (h_shape _ _ _ HH p h Hh) as Hshape.
  destruct (set_result s this p h i x HH Hthis Hp Hh Hi)
    as (s' & q & hq & Hset & Hq & Hq0 & Hhq & Hrc & Hsz & Hel).
  assert (Hjn : (N.to_nat j < length (elements hq))%nat).
  { rewrite Hel, length_insert. lia. }
  eexists s', _, q. split; [done|].
  split; [by apply (set_exclusive dflt ok this j y q hq)|].
  split; [done|]. split; [done|]. split; [done|]. split; [done|].
  unfold index_const.
  erewrite bind_Ok; last first.
  { eapply pointer_Ok; [exact Hq|done|cbn; apply lookup_insert_eq]. }
  eapply load_Ok; [done|cbn; apply lookup_insert_eq|].
  cbn. by apply list_lookup_insert_eq.
Qed.

(** *** Scopes of copies, and what sharing never does *)

(** X13.  Nested scopes of copies clean up after themselves.  Copy
    constructing the handles [ids] from a valid [source], one after the
    other, and destroying them in reverse order (as the scopes of a C++
    block do) is defined and leaves heap, handle objects and allocator
    exactly as they were, however many copies there are, as long as the
    counter can count them: the shared block is never destroyed and its
    counter is back at its value. *)
Theorem scoped_copies_restore (ids : list nat) : ∀ s (source : nat) (Y : N) h,
  NoDup ids →
  (∀ c, c ∈ ids → objs s !! c = None) →
  objs s !! source = Some Y →
  Y ≠ 0%N →
  heap s !! Y = Some h →
  1 ≤ refCount h →
  refCount h + Z.of_nat (length ids) < Atomic.modulus →
  ∃ s',
    run dflt (map (λ c, OpCopy c source) ids ++ map OpDtor (rev ids)) s = Some s'
    ∧ heap s' = heap s
    ∧ objs s' = objs s
    ∧ brk s' = brk s.
Proof.
  induction ids as [|c ids IH];
    intros s source Y h Hnd Hfresh Hsource HY Hh Hlow Hhigh.
  { exists s. done. }
  apply NoDup_cons in Hnd as [Hc Hnd]. cbn [length] in Hhigh.
  assert (Hcf : objs s !! c = None) by (apply Hfresh; left).
  assert (Hcs : c ≠ source) by (intros ->; congruence).
  set (s1 := log (EvPreAdd Y (refCount (Header_ref h)))
               (set_heap (insert Y (Header_ref h))
                  (set_objs (insert c Y) s))).
  assert (Hcopy : ctor_copy c source s = Ok tt s1) by (by apply ctor_copy_Ok).
  assert (Hrc1 : refCount (Header_ref h) = refCount h + 1)
    by (apply preAdd_1; lia).
  destruct (IH s1 source Y (Header_ref h)) as (s2 & Hrun2 & Hheap2 & Hobjs2 & Hbrk2);
    try done.
  { intros c' Hc'. cbn. rewrite lookup_insert_ne; [|intros ->; done].
    apply Hfresh. by right. }
  { cbn. by rewrite lookup_insert_ne. }
  { apply lookup_insert_eq. }
  { lia. }
  { lia. }
  assert (Hback : Header_unref (Header_ref h) = (false, h)).
  { destruct h as [rc n els]. cbn in *. unfold Header_unref. cbn.
    rewrite Hrc1, preSub_1 by lia. replace (rc + 1 - 1) with rc by lia.
    by rewrite (proj2 (Z.eqb_neq rc 0)) by lia. }
  assert (Hdtor : dtor c s2
                  = Ok tt (set_objs (delete c) (released Y (Header_ref h) s2))).
  { apply dtor_Ok; [|done|].
    - rewrite Hobjs2. apply lookup_insert_eq.
    - rewrite Hheap2. apply lookup_insert_eq. }
  eexists. split.
  { cbn [map rev]. rewrite map_app. cbn [map app run exec].
    rewrite Hcopy. rewrite app_assoc, run_app, Hrun2. cbn [run exec].
    rewrite Hdtor. reflexivity. }
  unfold released. rewrite Hback. cbn [fst snd].
  unfold set_objs, set_heap, log; cbn [heap objs brk trace].
  rewrite Hheap2, Hobjs2, Hbrk2. cbn.
  split; [|split; [|done]].
  - rewrite insert_insert_eq. by apply insert_id.
  - rewrite delete_insert_eq. by apply delete_id.
Qed.

(** X14.  Sharing never allocates.  In any state whatever, default and
    copy construction, assignment and destruction never leave by a failed
    allocation; when they return, the allocator has handed out nothing and
    no block has come into being: every block live afterwards was live
    before. *)
Theorem sharing_never_allocates s (o : op) :
  (∃ this, o = OpDefault this) ∨ (∃ this source, o = OpCopy this source)
  ∨ (∃ this source, o = OpAssign this source) ∨ (∃ this, o = OpDtor this) →
  (∀ s', exec dflt o s ≠ BadAlloc s')
  ∧ (∀ s', exec dflt o s = Ok tt s' →
           brk s' = brk s
           ∧ ∀ p, is_Some (heap s' !! p) → is_Some (heap s !! p)).
Proof.
  intros Ho.
  assert (Hrel : ∀ X,
            release X s = Undefined
            ∨ ∃ s1, release X s = Ok tt s1 ∧ objs s1 = objs s ∧ brk s1 = brk s
                    ∧ ∀ p, is_Some (heap s1 !! p) → is_Some (heap s !! p)).
  { intros X. destruct (release_cases X s) as [Hu|[[-> Hr]|(hX & HX & HhX & Hr)]];
      [by left|right; by exists s|right].
    exists (released X hX s). split; [done|]. split; [apply released_objs|].
    split; [apply released_brk|]. intros p. rewrite released_heap.
    destruct (_ =? 0).
    - intros [h [_ Hp]%lookup_delete_Some]. by rewrite Hp.
    - rewrite lookup_insert. case_decide; [subst p; by rewrite HhX|done]. }
  assert (Hacq : ∀ Y s2,
            (if decide (Y ≠ 0%N) then ref Y else ret tt) s2 = Undefined
            ∨ ∃ s', (if decide (Y ≠ 0%N) then ref Y else ret tt) s2 = Ok tt s'
                    ∧ brk s' = brk s2
                    ∧ ∀ p, is_Some (heap s' !! p) → is_Some (heap s2 !! p)).
  { intros Y s2. case_decide as HY; [|right; by exists s2].
    destruct (heap s2 !! Y) as [hY|] eqn:HhY.
    - right. eexists. split; [by apply (ref_Ok Y hY)|]. split; [done|].
      intros p. cbn. rewrite lookup_insert. case_decide; [subst p|done].
      by rewrite HhY.
    - left. unfold ref. rewrite bind_Undefined; [done|]. by apply deref_None. }
  enough (exec dflt o s = Undefined
          ∨ ∃ s1, exec dflt o s = Ok tt s1 ∧ brk s1 = brk s
                  ∧ ∀ p, is_Some (heap s1 !! p) → is_Some (heap s !! p))
    as [->|(s1 & -> & Hb & Hd)].
  { split; [done|]. intros s' [=]. }
  { split; [done|]. by intros s' [= <-]. }
  destruct Ho as [[this ->]|[(this & source & ->)|[(this & source & ->)|[this ->]]]];
    cbn [exec].
  - unfold ctor_default, fresh_object, bind.
    destruct (objs s !! this); [by left|right]. by eexists.
  - destruct (objs s !! this) eqn:Hthis.
    { left. unfold ctor_copy, fresh_object, bind. by rewrite Hthis. }
    destruct (objs s !! source) as [Y|] eqn:Hsource; last first.
    { left. unfold ctor_copy, fresh_object, bind at 1. rewrite Hthis.
      by rewrite (bind_Undefined _ _ _ (get_header_None _ _ Hsource)). }
    rewrite (ctor_copy_adopt s this source Y) by done.
    destruct (Hacq Y (set_objs (insert this Y) s)) as [->|(s' & -> & Hb & Hd)];
      [by left|right]. by exists s'.
  - destruct (objs s !! this) as [X|] eqn:Hthis; last first.
    { left. unfold assign.
      by rewrite (bind_Undefined _ _ _ (get_header_None _ _ Hthis)). }
    destruct (objs s !! source) as [Y|] eqn:Hsource; last first.
    { left. unfold assign.
      rewrite (bind_Ok _ _ _ _ _ (get_header_Ok _ _ _ Hthis)).
      by rewrite (bind_Undefined _ _ _ (get_header_None _ _ Hsource)). }
    destruct (decide (X = Y)) as [->|HXY].
    { right. exists s. unfold assign.
      rewrite (bind_Ok _ _ _ _ _ (get_header_Ok _ _ _ Hthis)).
      rewrite (bind_Ok _ _ _ _ _ (get_header_Ok _ _ _ Hsource)).
      by rewrite decide_False by (intros H; by apply H). }
    rewrite (assign_release_adopt s this source X Y) by done.
    destruct (Hrel X) as [Hu|(s1 & Hs1 & _ & Hb1 & Hd1)].
    { left. by rewrite (bind_Undefined _ _ _ Hu). }
    rewrite (bind_Ok _ _ _ _ _ Hs1).
    destruct (Hacq Y (set_objs (insert this Y) s1)) as [->|(s' & -> & Hb & Hd)];
      [by left|right].
    exists s'. split; [done|]. split; [by rewrite Hb|]. intros p Hp.
    by apply Hd1, Hd.
  - destruct (objs s !! this) as [X|] eqn:Hthis; last first.
    { left. unfold dtor.
      by rewrite (bind_Undefined _ _ _ (get_header_None _ _ Hthis)). }
    unfold dtor. rewrite (bind_Ok _ _ _ _ _ (get_header_Ok _ _ _ Hthis)).
    destruct (Hrel X) as [Hu|(s1 & Hs1 & _ & Hb1 & Hd1)].
    { left. by rewrite (bind_Undefined _ _ _ Hu). }
    right. rewrite (bind_Ok _ _ _ _ _ Hs1). by eexists.
Qed.

End Further.

(** ** The further properties on concrete runs *)

(** The run that reaches [st_shared], and the one that reaches [st_mixed]. *)
Definition ops_shared : list (@op Z) :=
  [OpSized true 0%nat 3%N; OpSet true 0%nat 0%N 1; OpSet true 0%nat 1%N 2;
   OpSet true 0%nat 2%N 3; OpCopy 1%nat 0%nat].

Definition ops_mixed : list (@op Z) :=
  [OpSized true 0%nat 3%N; OpSet true 0%nat 0%N 1; OpSet true 0%nat 1%N 2;
   OpSet true 0%nat 2%N 3; OpSized true 1%nat 2%N; OpSet true 1%nat 0%N 7;
   OpSet true 1%nat 1%N 8; OpDefault 2%nat].

(** [st_shared] after handle 1 has written 99 to its element 0. *)
Definition st_written : @State Z :=
  {| heap := {[ 1%N := block123 1;
                2%N := {| refCount := 1; size := 3; elements := [99; 2; 3] |} ]};
     objs := {[ 0%nat := 1%N; 1%nat := 2%N ]};
     brk := 3%positive;
     trace := [EvCreate 1 3; EvGet 1 1; EvGet 1 1; EvGet 1 1; EvPreAdd 1 2;
               EvGet 1 2; EvCreate 2 3; EvPreSub 1 1] |}.

(** X1 on the block [1; 2; 3] with counter 1. *)
Lemma ref_unref_roundtrip_witness :
  Header_unref (Header_ref (block123 1)) = (false, block123 1)
  ∧ Header_ref (snd (Header_unref (block123 1))) = block123 1.
Proof.
  apply (ref_unref_roundtrip (block123 1)).
  vm_compute. split; [discriminate | reflexivity].
Defined.

(** X2 on [st_one]: a new handle 5, from handle 0. *)
Lemma default_then_assign_is_copy_witness :
  bind (ctor_default 5) (λ _, assign 5 0) st_one = ctor_copy 5 0 st_one.
Proof.
  apply (default_then_assign_is_copy st_one 5%nat 0%nat).
  - discriminate.
  - vm_compute. reflexivity.
Defined.

(** X3 on [st_one]: handle 1 is a copy of handle 0 and is destroyed. *)
Lemma copy_then_dtor_restores_witness :
  ∃ s1 s2,
    ctor_copy 1 0 st_one = Ok tt s1
    ∧ dtor 1 s1 = Ok tt s2
    ∧ heap s2 = heap st_one
    ∧ objs s2 = objs st_one
    ∧ brk s2 = brk st_one
    ∧ trace s2 = trace st_one ++ [EvPreAdd 1 2; EvPreSub 1 1].
Proof.
  apply (copy_then_dtor_restores st_one 1%nat 0%nat 1%N (block123 1)).
  - vm_compute. reflexivity.
  - vm_compute. reflexivity.
  - discriminate.
  - vm_compute. reflexivity.
  - vm_compute. split; [discriminate | reflexivity].
Defined.

(** X4 on [st_one]: handle 1 is a copy of handle 0. *)
Lemma copy_shares_storage_witness :
  ∃ s',
    ctor_copy 1 0 st_one = Ok tt s'
    ∧ brk s' = brk st_one
    ∧ getArray_const 1 s' = Ok (ElemPtr 1 0) s'
    ∧ getArray_const 0 s' = Ok (ElemPtr 1 0) s'
    ∧ getSize 1 s' = Ok 3%N s'
    ∧ getSize 0 s' = Ok 3%N s'
    ∧ (∀ i, bind (index_const 1 i) load s' = bind (index_const 0 i) load s')
    ∧ heap s' = <[1%N := block123 2]> (heap st_one).
Proof.
  apply (copy_shares_storage st_one 1%nat 0%nat 1%N (block123 1)).
  - vm_compute. reflexivity.
  - vm_compute. reflexivity.
  - discriminate.
  - vm_compute. reflexivity.
Defined.

(** X5 on [st_shared]. *)
Lemma live_iff_referenced_witness :
  (∀ p, is_Some (heap st_shared !! p)
        ↔ p ≠ 0%N ∧ ∃ o, objs st_shared !! o = Some p)
  ∧ (objs st_shared = ∅ → heap st_shared = ∅).
Proof.
  apply (live_iff_referenced 0 ops_shared st_shared).
  - vm_compute. reflexivity.
  - vm_compute. reflexivity.
Defined.

(** X6 on [st_mixed]: the invalid handle 2 is assigned to handle 0, and
    handle 1 is destroyed. *)
Lemma sharing_operations_defined_witness :
  (∃ s', assign 0 2 st_mixed = Ok tt s'
         ∧ objs s' !! 0%nat = Some 0%N ∧ objs s' !! 2%nat = Some 0%N
         ∧ assign 0 2 s' = Ok tt s')
  ∧ (∃ s', dtor 1 st_mixed = Ok tt s' ∧ objs s' !! 1%nat = None).
Proof.
  destruct (sharing_operations_defined 0 ops_mixed st_mixed)
    as (_ & Hassign & Hdtor).
  - vm_compute. reflexivity.
  - vm_compute. reflexivity.
  - split.
    + apply (Hassign 0%nat 2%nat 1%N 0%N); vm_compute; reflexivity.
    + apply (Hdtor 1%nat 2%N). vm_compute. reflexivity.
Defined.

(** X7 on [st_shared]: handle 1 is destroyed while handle 0 shares the
    block. *)
Lemma dtor_frees_iff_last_witness :
  ∃ h s',
    heap st_shared !! 1%N = Some h
    ∧ dtor 1 st_shared = Ok tt s'
    ∧ (heap s' !! 1%N = None
       ↔ ∀ o, o ≠ 1%nat → objs st_shared !! o ≠ Some 1%N)
    ∧ (∀ o, o ≠ 1%nat → objs st_shared !! o = Some 1%N →
            heap s' !! 1%N = Some {| refCount := refCount h - 1;
                                     size := size h; elements := elements h |})
    ∧ (∀ q, q ≠ 1%N → heap s' !! q = heap st_shared !! q).
Proof.
  apply (dtor_frees_iff_last 0 ops_shared st_shared 1%nat 1%N).
  - vm_compute. reflexivity.
  - vm_compute. reflexivity.
  - vm_compute. reflexivity.
  - discriminate.
Defined.

(** X8 on [st_shared]: handle 1 writes 99, handle 0 still sees [1; 2; 3]. *)
Lemma others_unaffected_witness :
  objs st_written !! 0%nat = objs st_shared !! 0%nat
  ∧ ∀ p h, objs st_shared !! 0%nat = Some p → heap st_shared !! p = Some h →
           ∃ h', heap st_written !! p = Some h'
                 ∧ elements h' = elements h ∧ size h' = size h.
Proof.
  apply (others_unaffected 0 ops_shared st_shared
           (OpSet true 1%nat 0%N 99) 0%nat st_written).
  - vm_compute. reflexivity.
  - vm_compute. reflexivity.
  - discriminate.
  - left. vm_compute. reflexivity.
Defined.

(** X9 on [st_mixed]: handle 2 is invalid. *)
Lemma isValid_is_the_precondition_witness :
  isValid 2 st_mixed = Ok false st_mixed
  ∧ getSize 2 st_mixed = Undefined
  ∧ (∀ i, bind (index_const 2 i) load st_mixed = Undefined)
  ∧ (∀ ok i x, set 0 ok 2 i x st_mixed = Undefined).
Proof.
  destruct (isValid_is_the_precondition 0 ops_mixed st_mixed 2%nat 0%N)
    as (Hvalid & _ & Hinvalid).
  - vm_compute. reflexivity.
  - vm_compute. reflexivity.
  - vm_compute. reflexivity.
  - destruct (Hinvalid eq_refl) as (Hsize & Hread & _ & Hset).
    split; [exact Hvalid|]. split; [exact Hsize|]. split; [exact Hread|exact Hset].
Defined.


(** X11 on [st_shared]: handle 1 writes 99 to element 0. *)
Lemma set_then_read_witness :
  ∃ s', set 0 true 1 0 99 st_shared = Ok tt s'
        ∧ bind (index_const 1 0) load s' = Ok 99 s'
        ∧ (∀ j y, j ≠ 0%N → elements (block123 2) !! N.to_nat j = Some y →
                  bind (index_const 1 j) load s' = Ok y s')
        ∧ getSize 1 s' = Ok 3%N s'
        ∧ ∃ q hq, objs s' !! 1%nat = Some q ∧ heap s' !! q = Some hq
                  ∧ refCount hq = 1.
Proof.
  apply (set_then_read 0 ops_shared st_shared 1%nat 1%N (block123 2) 0%N 99).
  - vm_compute. reflexivity.
  - vm_compute. reflexivity.
  - discriminate.
  - vm_compute. reflexivity.
  - vm_compute. reflexivity.
Defined.

(** X12 on [st_shared]: handle 1 writes 99 to element 0, then 7 to element
    1 while the allocator would refuse. *)
Lemma second_set_in_place_witness :
  ∃ s' s'' q,
    set 0 true 1 0 99 st_shared = Ok tt s'
    ∧ set 0 false 1 1 7 s' = Ok tt s''
    ∧ objs s' !! 1%nat = Some q
    ∧ objs s'' = objs s'
    ∧ brk s'' = brk s'
    ∧ trace s'' = trace s' ++ [EvGet q 1]
    ∧ bind (index_const 1 1) load s'' = Ok 7 s''.
Proof.
  apply (second_set_in_place 0 ops_shared st_shared 1%nat 1%N (block123 2)
           0%N 1%N 99 7 false).
  - vm_compute. reflexivity.
  - vm_compute. reflexivity.
  - discriminate.
  - vm_compute. reflexivity.
  - vm_compute. reflexivity.
  - vm_compute. reflexivity.
Defined.

(** X13 on [st_one]: three nested copies of handle 0. *)
Lemma scoped_copies_restore_witness :
  ∃ s',
    run 0 [OpCopy 1%nat 0%nat; OpCopy 2%nat 0%nat; OpCopy 3%nat 0%nat;
           OpDtor 3%nat; OpDtor 2%nat; OpDtor 1%nat] st_one = Some s'
    ∧ heap s' = heap st_one
    ∧ objs s' = objs st_one
    ∧ brk s' = brk st_one.
Proof.
  apply (scoped_copies_restore 0 [1%nat; 2%nat; 3%nat] st_one 0%nat 1%N
           (block123 1)).
  - apply (bool_decide_unpack _). vm_compute. exact I.
  - intros c Hc. rewrite !elem_of_cons in Hc.
    destruct Hc as [-> | [-> | [-> | Hc]]];
      [vm_compute; reflexivity..|by apply elem_of_nil in Hc].
  - vm_compute. reflexivity.
  - discriminate.
  - vm_compute. reflexivity.
  - vm_compute. discriminate.
  - vm_compute. reflexivity.
Defined.

(** X14 on [st_one]: copy construction of handle 1 from handle 0. *)
Lemma sharing_never_allocates_witness :
  (∀ s', ctor_copy 1 0 st_one ≠ BadAlloc s')
  ∧ (∀ s', ctor_copy 1 0 st_one = Ok tt s' →
           brk s' = brk st_one
           ∧ ∀ p, is_Some (heap s' !! p) → is_Some (heap st_one !! p)).
Proof.
  apply (sharing_never_allocates 0 st_one (OpCopy 1%nat 0%nat)).
  right. left. exists 1%nat, 0%nat. reflexivity.
Defined.
